(** * Command execution subsystem of [Broken.Core]

    A shallow embedding of [flatten], [shell] and the [StdinWrapper] class
    defined inside [shell] (src/code/broken/core/__init__.py), with the
    properties of the command dispatcher and of the buffered stdin writer. *)

From Stdlib Require Import ZArith Bool Ascii String List Lia.
From stdpp Require Import base tactics option list strings pretty gmap.
Import ListNotations.

Set Warnings "-register-all".

Local Open Scope string_scope.
Local Open Scope list_scope.

(** ** Python values *)

(** The container types named by the default [unpack] of [flatten]. *)
Inductive kind := KList | KDeque | KTuple | KMap | KGenerator.

(** The fragments a caller hands to [flatten] and [shell]: [None], booleans,
    integers, strings and (nested) iterables. *)
Inductive pyval :=
| PNone
| PBool (b : bool)
| PInt (n : Z)
| PStr (s : string)
| PSeq (k : kind) (items : list pyval).

Definition kind_eqb (a b : kind) : bool :=
  match a, b with
  | KList, KList | KDeque, KDeque | KTuple, KTuple
  | KMap, KMap | KGenerator, KGenerator => true
  | _, _ => false
  end.

(** [isinstance(item, unpack)] for a container of kind [k]. *)
Definition isinstance (k : kind) (unpack : list kind) : bool :=
  existsb (kind_eqb k) unpack.

Definition default_unpack : list kind := [KList; KDeque; KTuple; KMap; KGenerator].

(** Lists, tuples and deques compare by value; [map] objects and generators
    compare by identity, and a fragment is never the same object as an entry
    of [block]. *)
Definition by_value (k : kind) : bool :=
  match k with KList | KDeque | KTuple => true | KMap | KGenerator => false end.

(** Python's [==] on these values ([True == 1], [[] != ()], ...). *)
Fixpoint py_eq (a b : pyval) {struct a} : bool :=
  match a, b with
  | PNone, PNone => true
  | PBool x, PBool y => Bool.eqb x y
  | PBool x, PInt n => Z.eqb (Z.b2z x) n
  | PInt n, PBool y => Z.eqb n (Z.b2z y)
  | PInt n, PInt m => Z.eqb n m
  | PStr s, PStr t => String.eqb s t
  | PSeq k xs, PSeq k' ys =>
      by_value k && kind_eqb k k' &&
      (fix all2 (xs ys : list pyval) {struct xs} : bool :=
         match xs, ys with
         | [], [] => true
         | x :: xs', y :: ys' => py_eq x y && all2 xs' ys'
         | _, _ => false
         end) xs ys
  | _, _ => false
  end.

(** [item in block] for a tuple or list [block]. *)
Definition py_in (item : pyval) (block : list pyval) : bool :=
  existsb (py_eq item) block.

(** ** [flatten] *)

Section Flatten.
(** [block: Optional[Container]] and [unpack: Iterable[type]]. *)
Variable block : option (list pyval).
Variable unpack : list kind.

(** [bool(block)]: [None] and the empty container are falsy. *)
Definition block_truthy : bool :=
  match block with
  | Some (_ :: _) => true
  | _ => false
  end.

(** The test of the [filter] call: [item not in block], applied only when
    [bool(block)]. *)
Definition kept (item : pyval) : bool :=
  if block_truthy
  then match block with Some bs => negb (py_in item bs) | None => true end
  else true.

(** What the loop body yields for one [item] of the filtered [data];
    the inner fixpoint is the [for item in data] loop of the recursive call
    [flatten(item)], with the [filter] fused into it. *)
Fixpoint yield_item (item : pyval) : list pyval :=
  match item with
  | PSeq k data =>
      if isinstance k unpack then
        (fix each (data : list pyval) : list pyval :=
           match data with
           | [] => []
           | x :: rest => if kept x then yield_item x ++ each rest else each rest
           end) data
      else [item]
  | _ => [item]
  end.

(** The inner generator [flatten(data)]. *)
Definition flatten_gen (data : list pyval) : list pyval :=
  flat_map yield_item (List.filter kept data).

(** [flatten] applied to the tuple [items] of its positional arguments,
    with [cast=list]. *)
Definition flatten_with (items : list pyval) : list pyval :=
  flatten_gen items.
End Flatten.

Definition default_block : option (list pyval) := Some [PNone; PStr ""].

(** [flatten] with the default keyword arguments. *)
Definition flatten (items : list pyval) : list pyval :=
  flatten_with default_block default_unpack items.

(** The leaves of the fragments, depth first, nothing dropped. *)
Fixpoint leaves (v : pyval) : list pyval :=
  match v with
  | PSeq _ data =>
      (fix each (data : list pyval) : list pyval :=
         match data with
         | [] => []
         | x :: rest => leaves x ++ each rest
         end) data
  | _ => [v]
  end.

(** The two sentinels of the default [block]. *)
Definition is_sentinel (v : pyval) : bool :=
  match v with
  | PNone => true
  | PStr "" => true
  | _ => false
  end.

(** A flat sequence: no element is itself a container. *)
Definition is_scalar (v : pyval) : bool :=
  match v with PSeq _ _ => false | _ => true end.

(** The statement of normalization idempotence: the flat sequence [ss] of
    strings, held in a container of kind [k] and handed to [flatten], comes
    back unchanged. *)
Definition flat_strings_unchanged (k : kind) (ss : list string) : Prop :=
  flatten [PSeq k (map PStr ss)] = map PStr ss.

(** Induction on values that reaches inside the containers. *)
Section PyvalInd.
Variable P : pyval -> Prop.
Hypothesis HNone : P PNone.
Hypothesis HBool : forall b, P (PBool b).
Hypothesis HInt : forall n, P (PInt n).
Hypothesis HStr : forall s, P (PStr s).
Hypothesis HSeq : forall k items, Forall P items -> P (PSeq k items).

Fixpoint pyval_nested_ind (v : pyval) : P v :=
  match v with
  | PNone => HNone
  | PBool b => HBool b
  | PInt n => HInt n
  | PStr s => HStr s
  | PSeq k items =>
      HSeq k items
        ((fix go (l : list pyval) : Forall P l :=
            match l with
            | [] => @List.Forall_nil _ P
            | x :: r => @List.Forall_cons _ P x r (pyval_nested_ind x) (go r)
            end) items)
  end.
End PyvalInd.

(** ** The collaborators of [shell] *)

(** The exceptions that [shell], the [subprocess] calls and the writer's
    threads can raise.  The specification calls [ValueError]
    [InvalidInvocation] and [FileNotFoundError] [BinaryNotFound]. *)
Inductive exn :=
| ValueError (msg : string)
| FileNotFoundError (msg : string)
| IndexError (msg : string)
| CalledProcessError (returncode : Z) (output : list Byte.byte)
| UnicodeDecodeError
| BrokenPipeError
| OSError (errno : Z).

Definition InvalidInvocation (e : exn) : Prop := exists msg, e = ValueError msg.
Definition BinaryNotFound (e : exn) : Prop := exists msg, e = FileNotFoundError msg.

(** A value of [**kwargs]: a plain value, a mapping of strings (such as
    [env]), or a callable (such as [preexec_fn]). *)
Inductive kwval :=
| KwVal (v : pyval)
| KwEnv (m : gmap string string)
| KwCallable (name : string).

(** What reaches [subprocess]: the tuple of strings, or the joined line. *)
Inductive command :=
| Argv (args : list string)
| ShellLine (line : string).

Inductive level := LInfo | LSkip | LWarning | LError | LMinor.

(** A log message: a text, or the line
    [_the + f" command {args}{_cwd}"] kept in its parts. *)
Inductive message :=
| Text (s : string)
| CommandLine (the : string) (args : list string) (cwd : kwval).

(** What [shell] does to the outside world, in order. *)
Inductive event :=
| Log (lvl : level) (msg : message) (echo : option bool)
| Which (name : string)
| Confirm (prompt : string)
| CheckOutput (cmd : command) (kw : gmap string kwval)
| PopenCall (cmd : command) (kw : gmap string kwval)
| RunCall (cmd : command) (kw : gmap string kwval)
| ThreadStart (pid : Z).

(** The process-creation primitives. *)
Definition spawns (e : event) : bool :=
  match e with
  | CheckOutput _ _ | PopenCall _ _ | RunCall _ _ => true
  | _ => false
  end.

Definition no_spawn (evs : list event) : Prop :=
  Forall (fun e => spawns e = false) evs.

Record CompletedProcess := { cp_args : command; returncode : Z }.

(** [process.stdin]: the raw pipe, or the [StdinWrapper] around it. *)
Inductive stdin_stream := RawPipe | Wrapped.

Record Process := { pid : Z; stdin : stdin_stream }.

(** What [shell] returns: [Union[None, str, Popen, CompletedProcess]]. *)
Inductive retval :=
| RNone
| RStr (s : string)
| RPopen (p : Process)
| RCompleted (c : CompletedProcess).

(** The host: everything [shell] asks of modules it does not define. *)
Record Host := {
  os_name : string;                                    (* os.name *)
  path_cwd : string;                                   (* Path.cwd() *)
  shutil_which : string -> option string;             (* shutil.which *)
  click_confirm : string -> bool;                      (* click.confirm *)
  check_output : command -> gmap string kwval -> exn + list Byte.byte;
  popen : command -> gmap string kwval -> exn + Z;
  subprocess_run : command -> gmap string kwval -> exn + CompletedProcess;
  decode_utf8 : list Byte.byte -> option string;       (* bytes.decode *)
  container_str : kind -> list pyval -> string;        (* str of a container *)
}.

(** [str(v)]. *)
Definition py_str (h : Host) (v : pyval) : string :=
  match v with
  | PNone => "None"
  | PBool true => "True"
  | PBool false => "False"
  | PInt n => pretty n
  | PStr s => s
  | PSeq k items => container_str h k items
  end.

(** [bool(v)]. *)
Definition py_truthy (v : pyval) : bool :=
  match v with
  | PNone => false
  | PBool b => b
  | PInt n => negb (Z.eqb n 0)
  | PStr s => negb (String.eqb s "")
  | PSeq k items =>
      match k, items with
      | (KList | KDeque | KTuple), [] => false
      | _, _ => true
      end
  end.

Definition kw_truthy (v : kwval) : bool :=
  match v with
  | KwVal v => py_truthy v
  | KwEnv m => negb (bool_decide (m = ∅))
  | KwCallable _ => true
  end.

(** [kwargs.get(key, default)] followed by a truth test, for a falsy
    default. *)
Definition kw_get_truthy (kwargs : gmap string kwval) (key : string) : bool :=
  match kwargs !! key with
  | Some v => kw_truthy v
  | None => false
  end.

(** ** The monad of [shell]: the process environment as state, the events
    in order, and a value or an exception *)

Inductive outcome (A : Type) :=
| Returns (a : A)
| Raises (e : exn).
Arguments Returns {A} a.
Arguments Raises {A} e.

Record ran (A : Type) := Ran {
  environ_after : gmap string string;   (* os.environ when the call is over *)
  emitted : list event;
  result : outcome A;
}.
Arguments Ran {A} _ _ _.
Arguments environ_after {A} _.
Arguments emitted {A} _.
Arguments result {A} _.

Definition M (A : Type) : Type := gmap string string -> ran A.

Definition ret {A} (a : A) : M A := fun environ => Ran environ [] (Returns a).

Definition bind {A B} (m : M A) (k : A -> M B) : M B :=
  fun environ =>
    match m environ with
    | Ran environ1 evs (Raises e) => Ran environ1 evs (Raises e)
    | Ran environ1 evs (Returns a) =>
        match k a environ1 with
        | Ran environ2 evs' r => Ran environ2 (evs ++ evs') r
        end
    end.

Definition raise {A} (e : exn) : M A := fun environ => Ran environ [] (Raises e).

Definition emit (e : event) : M unit := fun environ => Ran environ [e] (Returns tt).

(** Reading [os.environ]. *)
Definition os_environ : M (gmap string string) :=
  fun environ => Ran environ [] (Returns environ).

Declare Scope shell_scope.
Delimit Scope shell_scope with shell.
Notation "x <- c1 ;; c2" := (bind c1 (fun x => c2))
  (at level 100, c1 at next level, right associativity) : shell_scope.
Notation "c1 ;; c2" := (bind c1 (fun _ => c2))
  (at level 100, right associativity) : shell_scope.
Local Open Scope shell_scope.

(** A call of a collaborator that may raise. *)
Definition lift {A} (r : exn + A) : M A :=
  match r with
  | inl e => raise e
  | inr a => ret a
  end.

(** [log.error(text)]; what it hands back becomes the exception's
    argument, recorded here as the text itself. *)
Definition log_error (text : string) : M string :=
  emit (Log LError (Text text) None) ;; ret text.

(** ** [shell] *)

(** The keyword and positional arguments of one call. *)
Record call := {
  args : list pyval;
  output : bool;
  Popen : bool;
  env : option (gmap string string);
  confirm : bool;
  threaded_stdin : bool;
  skip : bool;
  echo : bool;
  kwargs : gmap string kwval;
}.

(** [tuple(map(str, flatten(args)))]: [args] is the tuple of the positional
    arguments, handed to [flatten] as its one item. *)
Definition normalize (h : Host) (fragments : list pyval) : list string :=
  map (py_str h) (flatten [PSeq KTuple fragments]).

(** The bare name [shell] in the body of [shell].  No parameter has that
    name (a caller's [shell=...] lands in [**kwargs]), so it is the
    module-level function itself, and a function object is truthy. *)
Definition shell_name : kwval := KwCallable "shell".

(** [args[0]]. *)
Definition first_arg (argv : list string) : M string :=
  match argv with
  | a :: _ => ret a
  | [] => raise (IndexError "tuple index out of range")
  end.

(** [if (not shell) and (not shutil.which(args[0])): raise ...]: the
    right operand, and [args[0]] with it, is evaluated only when the left
    one is true. *)
Definition assert_binary (h : Host) (argv : list string) : M unit :=
  if negb (kw_truthy shell_name) then
    a <- first_arg argv ;;
    emit (Which a) ;;
    if negb (bool_decide (is_Some (shutil_which h a))) then
      msg <- log_error ("Binary doesn't exist or was not found on PATH (" +:+ a +:+ ")") ;;
      raise (FileNotFoundError msg)
    else ret tt
  else ret tt.

(** [kwargs.get('cwd', '') or Path.cwd()]. *)
Definition log_cwd (h : Host) (kwargs : gmap string kwval) : kwval :=
  match kwargs !! "cwd" with
  | Some v => if kw_truthy v then v else KwVal (PStr (path_cwd h))
  | None => KwVal (PStr (path_cwd h))
  end.

(** The text of the [shell=True] warning: the two adjacent literals are
    one string, and the whole of it is multiplied by [not confirm]. *)
Definition shell_warning (confirm : bool) : string :=
  if confirm then ""
  else "Running command with (shell=True), be careful.. Consider using (confirm=True)".

(** [' '.join(args)]. *)
Definition join_spaces (argv : list string) : string :=
  String.concat " " argv.

(** [os.environ | (env or {})]: a new mapping, the overlay winning; a
    missing or empty [env] merges nothing. *)
Definition merged_env (environ : gmap string string)
    (env : option (gmap string string)) : gmap string string :=
  match env with
  | Some overlay => overlay ∪ environ
  | None => environ
  end.

(** The Windows branch: [kwargs.pop("preexec_fn", None)] runs only when
    [os.name == "nt"]. *)
Definition drop_preexec (h : Host) (kwargs : gmap string kwval)
    : M (gmap string kwval) :=
  if String.eqb (os_name h) "nt" then
    if kw_get_truthy kwargs "preexec_fn" then
      emit (Log LMinor
              (Text "shell(preexec_fn=...) is not supported on Windows, ignoring..")
              None) ;;
      ret (delete "preexec_fn" kwargs)
    else ret (delete "preexec_fn" kwargs)
  else ret kwargs.

(** The prompt handed to [click.confirm]. *)
Definition confirm_prompt : string := "• Confirm running the command above".

(** [shell], statement by statement: the mutual-exclusion check, the
    argument vector, the binary lookup, the log line and the skip return,
    the shell-string join and its warning, the confirmation, the merged
    environment, the Windows filter, and the dispatch on the mode. *)
Definition shell (h : Host) (c : call) : M retval :=
  (if output c && Popen c then
     msg <- log_error "Cannot use (output=True) and (Popen=True) at the same time" ;;
     raise (ValueError msg)
   else ret tt) ;;
  let argv := normalize h (args c) in
  assert_binary h argv ;;
  let _log := if skip c then LSkip else LInfo in
  let _the := if skip c then "Skipping" else "Running" in
  let _cwd := log_cwd h (kwargs c) in
  emit (Log _log (CommandLine _the argv _cwd) (Some (echo c))) ;;
  if skip c then ret RNone else
  cmd <- (if kw_get_truthy (kwargs c) "shell" then
            emit (Log LWarning (Text (shell_warning (confirm c))) None) ;;
            ret (ShellLine (join_spaces argv))
          else ret (Argv argv)) ;;
  declined <- (if confirm c then
                 emit (Confirm confirm_prompt) ;;
                 ret (negb (click_confirm h confirm_prompt))
               else ret false) ;;
  if (declined : bool) then ret RNone else
  environ <- os_environ ;;
  let kw := <["env" := KwEnv (merged_env environ (env c))]> (kwargs c) in
  kw <- drop_preexec h kw ;;
  if output c then
    emit (CheckOutput cmd kw) ;;
    bytes <- lift (check_output h cmd kw) ;;
    match decode_utf8 h bytes with
    | Some text => ret (RStr text)
    | None => raise UnicodeDecodeError
    end
  else if Popen c then
    emit (PopenCall cmd kw) ;;
    p <- lift (popen h cmd kw) ;;
    if threaded_stdin c then
      emit (ThreadStart p) ;;
      ret (RPopen {| pid := p; stdin := Wrapped |})
    else ret (RPopen {| pid := p; stdin := RawPipe |})
  else
    emit (RunCall cmd kw) ;;
    cp <- lift (subprocess_run h cmd kw) ;;
    ret (RCompleted cp).

(** ** Vocabulary of the properties of [shell] *)

(** The text of the mutual-exclusion error. *)
Definition both_message : string :=
  "Cannot use (output=True) and (Popen=True) at the same time".

(** The line every call that passes the first check logs. *)
Definition command_line (h : Host) (c : call) : event :=
  Log (if skip c then LSkip else LInfo)
      (CommandLine (if skip c then "Skipping" else "Running")
                   (normalize h (args c)) (log_cwd h (kwargs c)))
      (Some (echo c)).

(** The keyword arguments of the process-creation primitives of a trace. *)
Definition spawn_kwargs (e : event) : option (gmap string kwval) :=
  match e with
  | CheckOutput _ kw | PopenCall _ kw | RunCall _ kw => Some kw
  | _ => None
  end.

(** The call raises InvalidInvocation and has reached no process-creation
    primitive. *)
Definition rejected_before_spawn (r : ran retval) : Prop :=
  (exists e, result r = Raises e /\ InvalidInvocation e) /\ no_spawn (emitted r).

(** The command a process-creation primitive is called with. *)
Definition spawn_command (e : event) : option command :=
  match e with
  | CheckOutput cmd _ | PopenCall cmd _ | RunCall cmd _ => Some cmd
  | _ => None
  end.

(** The empty vector, or the empty line it joins to. *)
Definition empty_command (cmd : command) : Prop :=
  cmd = Argv [] \/ cmd = ShellLine "".

(** The binary lookup of the specification's step 3 passes: shell-string
    mode is set, or the first normalized argument is on the search path. *)
Definition binary_resolves (h : Host) (c : call) : Prop :=
  kw_get_truthy (kwargs c) "shell" = true
  \/ exists a rest, normalize h (args c) = a :: rest /\ is_Some (shutil_which h a).

(** [confirm and not click.confirm(...)]. *)
Definition declined (h : Host) (c : call) : bool :=
  confirm c && negb (click_confirm h confirm_prompt).

(** The value a call returns when it goes through to its mode. *)
Definition success_shape (c : call) (v : retval) : Prop :=
  if output c then exists text, v = RStr text
  else if Popen c then exists p, v = RPopen p
  else exists cp, v = RCompleted cp.

(** ** A host to run the examples on *)

(** A POSIX host whose search path holds [echo] and [false] and nothing
    else; a command not found there fails in the operating system, as
    [subprocess] reports it; its user answers no to every confirmation. *)
Definition on_path (name : string) : option string :=
  if String.eqb name "echo" then Some "/usr/bin/echo"
  else if String.eqb name "false" then Some "/usr/bin/false"
  else None.

Definition os_spawn (cmd : command) : exn + Z :=
  match cmd with
  | Argv (name :: _) =>
      match on_path name with
      | Some _ => inr (if String.eqb name "false" then 1 else 0)%Z
      | None => inl (FileNotFoundError "[Errno 2] No such file or directory")
      end
  | Argv [] => inl (IndexError "list index out of range")
  | ShellLine _ => inr 0%Z
  end.

Definition posix_host : Host := {|
  os_name := "posix";
  path_cwd := "/home/user";
  shutil_which := on_path;
  click_confirm := fun _ => false;
  check_output := fun cmd _ =>
    match os_spawn cmd with
    | inl e => inl e
    | inr 0%Z => inr []
    | inr code => inl (CalledProcessError code [])
    end;
  popen := fun cmd _ =>
    match os_spawn cmd with
    | inl e => inl e
    | inr _ => inr 4242%Z
    end;
  subprocess_run := fun cmd _ =>
    match os_spawn cmd with
    | inl e => inl e
    | inr code => inr {| cp_args := cmd; returncode := code |}
    end;
  decode_utf8 := fun bytes => Some (string_of_list_byte bytes);
  container_str := fun _ _ => "[...]";
|}.

(** [shell] called on [fragments] with every keyword argument at its default. *)
Definition plain_call (fragments : list pyval) : call := {|
  args := fragments;
  output := false;
  Popen := false;
  env := None;
  confirm := false;
  threaded_stdin := false;
  skip := false;
  echo := true;
  kwargs := ∅;
|}.

Definition with_skip (c : call) : call := {|
  args := args c; output := output c; Popen := Popen c; env := env c;
  confirm := confirm c; threaded_stdin := threaded_stdin c; skip := true;
  echo := echo c; kwargs := kwargs c;
|}.

Definition with_confirm (c : call) : call := {|
  args := args c; output := output c; Popen := Popen c; env := env c;
  confirm := true; threaded_stdin := threaded_stdin c; skip := skip c;
  echo := echo c; kwargs := kwargs c;
|}.

Definition with_mode (capture spawn : bool) (c : call) : call := {|
  args := args c; output := capture; Popen := spawn; env := env c;
  confirm := confirm c; threaded_stdin := threaded_stdin c; skip := skip c;
  echo := echo c; kwargs := kwargs c;
|}.

Definition with_env (overlay : gmap string string) (c : call) : call := {|
  args := args c; output := output c; Popen := Popen c; env := Some overlay;
  confirm := confirm c; threaded_stdin := threaded_stdin c; skip := skip c;
  echo := echo c; kwargs := kwargs c;
|}.

(** ** [StdinWrapper]: the queue, the worker thread and [close] *)

Module StdinWrapper.

(** What a Python call does to its caller. *)
Inductive called (A : Type) :=
| Returned (a : A)
| Raised (e : exn)
| Blocked.
Arguments Returned {A} a.
Arguments Raised {A} e.
Arguments Blocked {A}.

Definition chunk := string.

(** [Queue(maxsize=10)]. *)
Definition maxsize : nat := 10.

(** Where the worker thread stands in
    [while self._loop: self._stdin.write(self._queue.get()); self._queue.task_done()];
    a crashed thread keeps the chunk it had taken and not written. *)
Inductive worker_pc :=
| AtLoopTest
| AtGet
| AtWrite (c : chunk)
| AtTaskDone
| Exited
| Crashed (lost : list chunk) (e : exn).

(** Where the caller of [close] stands in its four statements, or the
    exception that [close] raised to it: [close] has no handler, so an
    exception of [self._stdin.close()] leaves [close] at once. *)
Inductive close_pc :=
| AtJoin
| AtStdinClose
| AtClearLoop
| AtPoll
| Failed (e : exn).

(** The calls a producer makes on the wrapper. *)
Inductive op := Write (c : chunk) | Close.

Record state := State {
  queue : list chunk;        (* self._queue, oldest first *)
  unfinished : nat;          (* self._queue.unfinished_tasks *)
  loop : bool;               (* self._loop *)
  pipe_open : bool;          (* self._stdin not yet closed *)
  pipe : list chunk;         (* what self._stdin.write has written, in order *)
  exited : bool;             (* self._process.poll() is not None *)
  worker : worker_pc;
  closing : option close_pc; (* the producer is inside close(), or close() raised *)
  script : list op;          (* the calls the producer has still to make *)
}.

(** The wrapper as [__attrs_post_init__] leaves it: the thread started, the
    flag set, the queue empty. *)
Definition init (calls : list op) : state :=
  State [] 0 true true [] false AtLoopTest None calls.

(** [self._queue.put(data)]: blocks while the queue is full. *)
Definition put (c : chunk) (st : state) : called state :=
  if Nat.ltb (List.length (queue st)) maxsize then
    Returned (State (queue st ++ [c]) (S (unfinished st)) (loop st) (pipe_open st)
                    (pipe st) (exited st) (worker st) (closing st) (script st))
  else Blocked.

(** [StdinWrapper.write]. *)
Definition write (c : chunk) (st : state) : called state := put c st.

Definition set_worker (w : worker_pc) (st : state) : state :=
  State (queue st) (unfinished st) (loop st) (pipe_open st) (pipe st) (exited st)
        w (closing st) (script st).

Definition set_closing (p : option close_pc) (st : state) : state :=
  State (queue st) (unfinished st) (loop st) (pipe_open st) (pipe st) (exited st)
        (worker st) p (script st).

Definition set_script (s : list op) (st : state) : state :=
  State (queue st) (unfinished st) (loop st) (pipe_open st) (pipe st) (exited st)
        (worker st) (closing st) s.

(** One statement of [StdinWrapper.worker]; [None] while the thread waits in
    [get] or is gone. *)
Definition worker_step (st : state) : option state :=
  match worker st with
  | AtLoopTest => Some (set_worker (if loop st then AtGet else Exited) st)
  | AtGet =>
      match queue st with
      | c :: rest =>
          Some (State rest (unfinished st) (loop st) (pipe_open st) (pipe st)
                      (exited st) (AtWrite c) (closing st) (script st))
      | [] => None
      end
  | AtWrite c =>
      if pipe_open st then
        Some (State (queue st) (unfinished st) (loop st) (pipe_open st)
                    (pipe st ++ [c]) (exited st) AtTaskDone (closing st) (script st))
      else
        Some (set_worker (Crashed [c] (ValueError "I/O operation on closed file")) st)
  | AtTaskDone =>
      match unfinished st with
      | S n =>
          Some (State (queue st) n (loop st) (pipe_open st) (pipe st) (exited st)
                      AtLoopTest (closing st) (script st))
      | O => Some (set_worker (Crashed [] (ValueError "task_done() called too many times")) st)
      end
  | Exited => None
  | Crashed _ _ => None
  end.

(** One statement of [StdinWrapper.close]; [None] while [join] waits, and
    once [close] has raised: the exception goes up through the producer,
    which makes no further call.  [self._stdin.close()] is here the close
    that succeeds; [close_breaks] is the one that fails. *)
Definition close_step (pc : close_pc) (st : state) : option state :=
  match pc with
  | AtJoin =>
      if Nat.eqb (unfinished st) 0 then Some (set_closing (Some AtStdinClose) st) else None
  | AtStdinClose =>
      Some (State (queue st) (unfinished st) (loop st) false (pipe st) (exited st)
                  (worker st) (Some AtClearLoop) (script st))
  | AtClearLoop =>
      Some (State (queue st) (unfinished st) false (pipe_open st) (pipe st) (exited st)
                  (worker st) (Some AtPoll) (script st))
  | AtPoll =>
      if exited st then Some (set_closing None st)   (* poll() is not None: return *)
      else Some st                                   (* time.sleep(0.01) *)
  | Failed _ => None
  end.

(** [self._stdin.close()] failing.  The pipe is a buffered writer: [close]
    flushes what was written and then closes the descriptor; once the child
    no longer reads, the flush of a stream that is still open and has been
    written to raises [BrokenPipeError].  The descriptor is closed all the
    same, and the exception leaves [StdinWrapper.close] before
    [self._loop = False] and before the poll loop. *)
Definition close_breaks (st : state) : option state :=
  match closing st, pipe st with
  | Some AtStdinClose, _ :: _ =>
      if pipe_open st && exited st then
        Some (State (queue st) (unfinished st) (loop st) false (pipe st) (exited st)
                    (worker st) (Some (Failed BrokenPipeError)) (script st))
      else None
  | _, _ => None
  end.

(** The producer: inside [close] it runs the next statement of [close];
    otherwise it makes the next call of its script. *)
Definition producer_step (st : state) : option state :=
  match closing st with
  | Some pc => close_step pc st
  | None =>
      match script st with
      | Write c :: rest =>
          match write c st with
          | Returned st' => Some (set_script rest st')
          | _ => None
          end
      | Close :: rest => Some (set_script rest (set_closing (Some AtJoin) st))
      | [] => None
      end
  end.

(** Who moves next: the producer, the worker thread, the child process
    (which may exit at any time), the pipe failing under a write once the
    child is gone, or the pipe failing under [close]. *)
Inductive actor := Producer | Worker | ChildExits | PipeBreaks | CloseBreaks.

Definition fire (a : actor) (st : state) : option state :=
  match a with
  | Producer => producer_step st
  | Worker => worker_step st
  | ChildExits =>
      Some (State (queue st) (unfinished st) (loop st) (pipe_open st) (pipe st) true
                  (worker st) (closing st) (script st))
  | PipeBreaks =>
      match worker st with
      | AtWrite c => if exited st then Some (set_worker (Crashed [c] BrokenPipeError) st)
                     else None
      | _ => None
      end
  | CloseBreaks => close_breaks st
  end.

Definition step (st st' : state) : Prop := exists a, fire a st = Some st'.

(** Every interleaving. *)
Definition reaches : state -> state -> Prop := rtc step.

(** One interleaving, given by its schedule. *)
Fixpoint run (schedule : list actor) (st : state) : option state :=
  match schedule with
  | [] => Some st
  | a :: rest =>
      match fire a st with
      | Some st' => run rest st'
      | None => None
      end
  end.

(** The producer of the graceful-close property: [K] writes, then [close]. *)
Definition writes_then_close (chunks : list chunk) : list op :=
  map Write chunks ++ [Close].



(** The chunks a crashed or writing worker holds, and the [task_done] calls
    it still owes. *)
Definition held (w : worker_pc) : list chunk :=
  match w with
  | AtWrite c => [c]
  | Crashed lost _ => lost
  | _ => []
  end.

Definition owed (w : worker_pc) : nat :=
  match w with
  | AtWrite _ | AtTaskDone => 1
  | Crashed lost _ => List.length lost
  | _ => 0
  end.

(** The chunks of the writes still in the script. *)
Fixpoint pending (calls : list op) : list chunk :=
  match calls with
  | [] => []
  | Write c :: rest => c :: pending rest
  | Close :: rest => pending rest
  end.

(** The state after [close] has run its first three statements. *)
Definition closed (st : state) : Prop :=
  pipe_open st = false /\ loop st = false.

(** *** Vocabulary of the properties of the writer *)




(** One full run with two chunks: both writes, the worker draining them,
    [close] going through its four statements, the child exiting. *)
Definition two_chunk_schedule : list actor :=
  [Producer; Producer; Producer;
   Worker; Worker; Worker; Worker;
   Worker; Worker; Worker; Worker;
   Worker;
   Producer; Producer; Producer; ChildExits; Producer].

(** The state that run ends in. *)
Definition two_chunk_final : state :=
  State [] 0 false false ["a"; "b"] true AtGet None [].



(** The worker thread has ended: it left its loop, or an exception killed
    it. *)
Definition worker_gone (w : worker_pc) : bool :=
  match w with
  | Exited | Crashed _ _ => true
  | _ => false
  end.

(** The statement of the writer-misuse rule: the call fails fast. *)
Definition write_rejected (c : chunk) (st : state) : Prop :=
  exists e, write c st = Raised e.

(** The wrapper after [close()] with nothing written before, and the
    producer about to call [write("late")]. *)
Definition after_close : state :=
  State [] 0 false false [] true AtGet None [Write "late"].

(** The same wrapper once the worker has taken the late chunk and failed on
    the closed pipe. *)
Definition late_lost : state :=
  State [] 1 false false [] true
        (Crashed ["late"] (ValueError "I/O operation on closed file")) None [].

End StdinWrapper.

(** ** Vocabulary for [flatten] with any [block] and [unpack] *)

(** What [flatten] may yield: an item its [block] keeps and its [unpack]
    does not open. *)
Definition yieldable (block : option (list pyval)) (unpack : list kind)
    (v : pyval) : Prop :=
  kept block v = true
  /\ match v with
     | PSeq k _ => isinstance k unpack = false
     | _ => True
     end.

(** ** [every] *)

(** [every] on the arguments [items], with [cast=list]: the flattened items,
    nothing dropped, unless one of them is in [block]. *)
Definition every_with (block : list pyval) (items : list pyval)
    : option (list pyval) :=
  let items := flatten_with None default_unpack items in
  if existsb (fun item => py_in item block) items then None else Some items.

(** [every] with the default [block=(None, "")]. *)
Definition every (items : list pyval) : option (list pyval) :=
  every_with [PNone; PStr ""] items.

(** ** Vocabulary of the ordering properties of the writer *)

Module WriterOrder.
Import StdinWrapper.

(** Every chunk handed to [write] so far or still to be handed is in one
    place, in call order; the queue's counter tallies with it; the queue
    holds no more than [maxsize] chunks; and the worker has at most one chunk
    taken and not acknowledged. *)
Definition conserved (calls : list op) (st : state) : Prop :=
  pipe st ++ held (worker st) ++ queue st ++ pending (script st) = pending calls
  /\ unfinished st = List.length (queue st) + owed (worker st)
  /\ List.length (queue st) <= maxsize
  /\ owed (worker st) <= 1.

(** The wrapper with [queued] in its queue, nobody having moved since, and
    the producer about to make [calls]. *)
Definition loaded (queued : list chunk) (calls : list op) : state :=
  State queued (List.length queued) true true [] false AtLoopTest None calls.

End WriterOrder.

(** ** Small helpers of [Broken.Core] *)

Module Utils.

(** The exceptions of the helpers: those of [shell], and two more. *)
Inductive error :=
| Exn (e : exn)
| TypeError (msg : string)
| KeyError (key : pyval).

Section PopFill.
Context {A : Type}.

(** The first loop of [pop_fill], [while len(data) > length: data.pop()],
    on the list held as a stack, last element first; [pop] on an empty list
    raises. *)
Fixpoint pop_loop (stack : list A) (length : Z) : exn + list A :=
  if Z.ltb length (Z.of_nat (List.length stack)) then
    match stack with
    | [] => inl (IndexError "pop from empty list")
    | _ :: below => pop_loop below length
    end
  else inr stack.

(** The second loop, [while len(data) < length: data.append(fill())], as
    the appends it still has to make. *)
Fixpoint fill_loop (todo : nat) (fill : unit -> A) (data : list A) : list A :=
  match todo with
  | O => data
  | S n => fill_loop n fill (data ++ [fill tt])
  end.

(** [pop_fill(data, fill, length)]. *)
Definition pop_fill (data : list A) (fill : unit -> A) (length : Z)
    : exn + list A :=
  match pop_loop (rev data) length with
  | inl e => inl e
  | inr stack =>
      let data := rev stack in
      inr (fill_loop (Z.to_nat (length - Z.of_nat (List.length data))) fill data)
  end.

(** [data[index]] on a list: a negative index counts from the end. *)
Definition py_getitem (data : list A) (index : Z) : exn + A :=
  let i := if Z.ltb index 0 then (index + Z.of_nat (List.length data))%Z else index in
  if Z.ltb i 0 then inl (IndexError "list index out of range")
  else match nth_error data (Z.to_nat i) with
       | Some x => inr x
       | None => inl (IndexError "list index out of range")
       end.

(** [list_get(data, index, default)]. *)
Definition list_get (data : list A) (index : Z) (default : A) : exn + A :=
  if Z.geb index (Z.of_nat (List.length data)) then inr default
  else py_getitem data index.

End PopFill.

(** [clamp(value, low, high)] on Python integers:
    [max(low, min(value, high))]. *)
Definition clamp (value low high : Z) : Z :=
  Z.max low (Z.min value high).

(** *** [environment] *)





(** *** Strings *)

(** [s.replace(old, new)] for a non-empty [old]: left to right, the
    occurrences that do not overlap; [skip] counts the characters of the
    occurrence just replaced that are still to be passed over. *)
Fixpoint replace_from (old new : string) (skip : nat) (s : string) : string :=
  match s with
  | EmptyString => EmptyString
  | String ch rest =>
      match skip with
      | S k => replace_from old new k rest
      | O =>
          if String.prefix old s
          then new +:+ replace_from old new (String.length old - 1) rest
          else String ch (replace_from old new 0 rest)
      end
  end.

(** For an empty [old]: [new] before every character and at the end. *)
Fixpoint replace_between (new : string) (s : string) : string :=
  match s with
  | EmptyString => EmptyString
  | String ch rest => String ch (new +:+ replace_between new rest)
  end.

(** [s.replace(old, new)]. *)
Definition py_replace (s old new : string) : string :=
  match old with
  | EmptyString => new +:+ replace_between new s
  | _ => replace_from old new 0 s
  end.

(** [s.split(sep)] for a one-character [sep]: never empty, one part more
    than there are separators. *)
Fixpoint split_char (sep : ascii) (s : string) : list string :=
  match s with
  | EmptyString => [EmptyString]
  | String ch rest =>
      if Ascii.eqb ch sep then EmptyString :: split_char sep rest
      else match split_char sep rest with
           | part :: parts => String ch part :: parts
           | [] => [String ch EmptyString]
           end
  end.

(** [ch in s]. *)
Fixpoint has_char (ch : ascii) (s : string) : bool :=
  match s with
  | EmptyString => false
  | String c rest => Ascii.eqb c ch || has_char ch rest
  end.

(** [BrokenAttribute.Parts]. *)
Record Parts := { all : list string; body : list string; last : string }.

(** [BrokenAttribute.decompose(key)] for a string [key]: [parts[:-1]] and
    [parts[-1]] of a list that [split] never leaves empty. *)
Definition decompose (key : string) : Parts :=
  let parts := split_char "." (py_replace key "-" "_") in
  {| all := parts; body := removelast parts; last := List.last parts "" |}.

(** What [str.endswith] can be handed: a string, a tuple of strings, or, as
    [StringUtils.border] does, the iterator [reversed(border)]. *)
Inductive suffix_arg :=
| SuffixStr (s : string)
| SuffixTuple (ss : list string)
| SuffixReversed (s : string).

(** [string.startswith(prefix)]. *)
Definition startswith (string prefix : string) : bool := String.prefix prefix string.

(** [string.endswith(suffix)] on the characters reversed. *)
Definition ends_with (string suffix : string) : bool :=
  String.prefix (String.rev suffix) (String.rev string).

(** [string.endswith(arg)]: anything but a string or a tuple of strings is
    a [TypeError]. *)
Definition endswith (string : string) (arg : suffix_arg) : error + bool :=
  match arg with
  | SuffixStr s => inr (ends_with string s)
  | SuffixTuple ss => inr (existsb (ends_with string) ss)
  | SuffixReversed _ =>
      inl (TypeError "endswith first arg must be str or a tuple of str, not reversed")
  end.

(** [StringUtils.border]: [and] evaluates its right operand only when the
    left one is true. *)
Definition border (string border : string) : error + bool :=
  if startswith string border then endswith string (SuffixReversed border)
  else inr false.

(** [StringUtils.dunder]. *)
Definition dunder (name : string) : error + bool := border name "__".

(** [StringUtils.sunder]:
    [border(name, "_") and not dunder(name)]. *)
Definition sunder (name : string) : error + bool :=
  match border name "_" with
  | inl e => inl e
  | inr false => inr false
  | inr true =>
      match dunder name with
      | inl e => inl e
      | inr d => inr (negb d)
      end
  end.

(** [StringUtils.private]. *)
Definition private (name : string) : bool := startswith name "_".

(** *** [DictUtils] *)

(** [bool(container)] for an optional container of keys. *)
Definition keys_truthy (keys : option (list string)) : bool :=
  match keys with
  | Some (_ :: _) => true
  | _ => false
  end.

(** [{key: value for key, value in data.items() if keep(key)}]. *)
Definition dict_where {V} (keep : string -> bool) (data : gmap string V)
    : gmap string V :=
  filter (fun kv => keep kv.1 = true) data.

(** [DictUtils.filter_dict(data, block=block, allow=allow)]. *)
Definition filter_dict {V} (data : gmap string V)
    (block allow : option (list string)) : gmap string V :=
  let data :=
    if keys_truthy block
    then dict_where (fun key => negb (bool_decide (key ∈ default [] block))) data
    else data in
  if keys_truthy allow
  then dict_where (fun key => bool_decide (key ∈ default [] allow)) data
  else data.

(** [DictUtils.selfless]. *)
Definition selfless {V} (data : gmap string V) : gmap string V :=
  filter_dict data (Some ["self"]) None.

End Utils.

(** ** [block_modules] *)

Module BlockModules.
Import Utils.

(** An entry of [sys.modules]: a loaded module, or [None], which makes an
    import of that name fail. *)
Inductive modref := Blocked | Loaded (name : string).

(** [sys.modules] as its lookup: keys are found by Python's [==]. *)
Definition table := pyval -> option modref.

(** [hash(v)] succeeds: lists and deques are unhashable, and so is a tuple
    that holds one. *)
Fixpoint hashable (v : pyval) : bool :=
  match v with
  | PSeq KList _ | PSeq KDeque _ => false
  | PSeq KTuple items =>
      (fix each (items : list pyval) : bool :=
         match items with
         | [] => true
         | x :: rest => hashable x && each rest
         end) items
  | _ => true
  end.

(** [d[key] = value]. *)
Definition d_set (key : pyval) (value : modref) (d : table) : table :=
  fun k => if py_eq key k then Some value else d k.

(** [del d[key]], for a key that is there. *)
Definition d_del (key : pyval) (d : table) : table :=
  fun k => if py_eq key k then None else d k.

Definition unhashable : error := TypeError "unhashable type".

(** The loop of the [try] block, [sys.modules[module] = None] for each
    module of [flatten(modules)]: the table as the loop leaves it, and the
    exception that stopped it, if any. *)
Fixpoint block_all (modules : list pyval) (sys : table) : table * option error :=
  match modules with
  | [] => (sys, None)
  | module :: rest =>
      if hashable module then block_all rest (d_set module Blocked sys)
      else (sys, Some unhashable)
  end.

(** The loop of the [finally] block, over [modules] as given, not
    flattened: [module in state] hashes the module; a module that was in
    [state] gets its entry back, any other is deleted, which is a
    [KeyError] when it is not in [sys.modules]. *)
Fixpoint restore_all (state : table) (modules : list pyval) (sys : table)
    : table * option error :=
  match modules with
  | [] => (sys, None)
  | module :: rest =>
      if hashable module then
        match state module with
        | Some original => restore_all state rest (d_set module original sys)
        | None =>
            match sys module with
            | Some _ => restore_all state rest (d_del module sys)
            | None => (sys, Some (KeyError module))
            end
        end
      else (sys, Some unhashable)
  end.

(** The context manager [block_modules], around a [body] that may change
    [sys.modules] and may raise: an exception of the [finally] block takes
    the place of whatever the block returned or raised. *)
Definition block_modules {A} (modules : list pyval)
    (body : table -> table * (error + A)) (sys : table) : table * (error + A) :=
  let state := sys in
  let '(after, outcome) :=
    match block_all (flatten [PSeq KTuple modules]) sys with
    | (blocked, None) => body blocked
    | (partly, Some e) => (partly, inl e)
    end in
  match restore_all state modules after with
  | (restored, None) => (restored, outcome)
  | (partly, Some e) => (partly, inl e)
  end.

(** The body takes no entry for one of [names] out of [sys.modules]. *)
Definition keeps {A} (names : list string)
    (body : table -> table * (error + A)) : Prop :=
  forall sys name, In name names -> sys (PStr name) <> None ->
    fst (body sys) (PStr name) <> None.

End BlockModules.

(** ** Facts about [flatten] *)

Lemma yield_item_seq block unpack k data :
  yield_item block unpack (PSeq k data) =
  if isinstance k unpack then flatten_gen block unpack data else [PSeq k data].
Proof.
  cbn [yield_item]. destruct (isinstance k unpack); [|reflexivity].
  unfold flatten_gen.
  induction data as [|x rest IH]; [reflexivity|].
  cbn [List.filter]. destruct (kept block x); cbn [flat_map]; now rewrite IH.
Qed.

Lemma flatten_gen_cons block unpack x rest :
  flatten_gen block unpack (x :: rest) =
  (if kept block x then yield_item block unpack x else []) ++
  flatten_gen block unpack rest.
Proof.
  unfold flatten_gen. cbn [List.filter].
  destruct (kept block x); reflexivity.
Qed.

Lemma leaves_seq k data : leaves (PSeq k data) = flat_map leaves data.
Proof.
  cbn [leaves]. induction data as [|x rest IH]; [reflexivity|].
  cbn [flat_map]. now rewrite IH.
Qed.

Lemma isinstance_default k : isinstance k default_unpack = true.
Proof. now destruct k. Qed.

Lemma kept_default v : kept default_block v = negb (is_sentinel v).
Proof.
  destruct v as [| | |s|]; try reflexivity.
  destruct s as [|a s]; reflexivity.
Qed.

Lemma is_sentinel_leaf v : is_sentinel v = true -> leaves v = [v].
Proof. destruct v; try discriminate; reflexivity. Qed.

Lemma filter_flat_map {A B} (p : B -> bool) (f : A -> list B) l :
  List.filter p (flat_map f l) = flat_map (fun x => List.filter p (f x)) l.
Proof.
  induction l as [|x l IH]; [reflexivity|].
  cbn [flat_map]. now rewrite List.filter_app, IH.
Qed.

(** With the default arguments, one item yields its leaves minus the
    sentinels. *)
Lemma yield_item_leaves v :
  is_sentinel v = false ->
  yield_item default_block default_unpack v =
  List.filter (fun x => negb (is_sentinel x)) (leaves v).
Proof.
  induction v as [| | | |k items IH] using pyval_nested_ind; intros Hs.
  1-4: cbn [leaves List.filter yield_item]; now rewrite Hs.
  rewrite yield_item_seq, isinstance_default, leaves_seq. clear Hs.
  induction IH as [|x rest Hx _ IHrest]; [reflexivity|].
  rewrite flatten_gen_cons, kept_default. cbn [flat_map].
  rewrite List.filter_app, IHrest.
  destruct (is_sentinel x) eqn:Ex; cbn [negb].
  - rewrite (is_sentinel_leaf x Ex). cbn [List.filter]. now rewrite Ex.
  - now rewrite Hx.
Qed.

Lemma flatten_leaves items :
  flatten items =
  List.filter (fun x => negb (is_sentinel x)) (flat_map leaves items).
Proof.
  unfold flatten, flatten_with.
  induction items as [|x rest IH]; [reflexivity|].
  rewrite flatten_gen_cons, kept_default. cbn [flat_map].
  rewrite List.filter_app, IH.
  destruct (is_sentinel x) eqn:Ex; cbn [negb].
  - rewrite (is_sentinel_leaf x Ex). cbn [List.filter]. now rewrite Ex.
  - now rewrite yield_item_leaves.
Qed.

Lemma is_sentinel_false v :
  is_sentinel v = false <-> v <> PNone /\ v <> PStr "".
Proof.
  split.
  - intros H; split; intros ->; discriminate.
  - intros [H1 H2]. destruct v as [| | |s|]; try reflexivity; [congruence|].
    destruct s; [congruence|reflexivity].
Qed.

Lemma leaves_scalar v : is_scalar v = true -> leaves v = [v].
Proof. destruct v; try discriminate; reflexivity. Qed.

Lemma flat_map_leaves_scalars items :
  Forall (fun v => is_scalar v = true) items -> flat_map leaves items = items.
Proof.
  induction 1 as [|x rest Hx _ IH]; [reflexivity|].
  cbn [flat_map]. now rewrite (leaves_scalar x Hx), IH.
Qed.

(** A flat input loses its sentinels and nothing else. *)
Lemma flatten_flat items :
  Forall (fun v => is_scalar v = true) items ->
  flatten items = List.filter (fun v => negb (is_sentinel v)) items.
Proof. intros H. now rewrite flatten_leaves, flat_map_leaves_scalars. Qed.

(** With the default [unpack] no container survives, so [str] in [shell]
    only ever meets scalars. *)
Lemma leaves_scalars v : Forall (fun x => is_scalar x = true) (leaves v).
Proof.
  induction v as [| | | |k items IH] using pyval_nested_ind;
    try (repeat constructor).
  rewrite leaves_seq.
  induction IH as [|x rest Hx _ IHrest]; [constructor|].
  cbn [flat_map]. apply Forall_app. split; assumption.
Qed.

Lemma flatten_scalars items : Forall (fun x => is_scalar x = true) (flatten items).
Proof.
  rewrite flatten_leaves.
  apply List.Forall_forall. intros x Hx.
  apply List.filter_In in Hx as [Hx _].
  apply List.in_flat_map in Hx as (v & _ & Hx).
  pose proof (leaves_scalars v) as Hv.
  rewrite List.Forall_forall in Hv. now apply Hv.
Qed.

(** C7. Blocked-value removal: whatever fragments [flatten] is given, nested
    or not, its output contains neither [None] nor the empty string, and it
    is the depth-first sequence of the input's leaves with exactly the
    sentinels removed, so the elements that remain keep their relative
    order. *)
Theorem flatten_drops_sentinels_keeps_order (items : list pyval) :
  Forall (fun v => v <> PNone /\ v <> PStr "") (flatten items)
  /\ flatten items =
     List.filter (fun v => negb (is_sentinel v)) (flat_map leaves items)
  /\ sublist (flatten items) (flat_map leaves items).
Proof.
  split; [|split].
  - rewrite flatten_leaves. apply List.Forall_forall. intros v Hv.
    apply List.filter_In in Hv as [_ Hv].
    apply is_sentinel_false. now destruct (is_sentinel v).
  - apply flatten_leaves.
  - rewrite flatten_leaves.
    generalize (flat_map leaves items). intros l.
    induction l as [|x l IH]; [constructor|].
    cbn [List.filter]. destruct (negb (is_sentinel x)).
    + now apply sublist_skip.
    + now apply sublist_cons.
Qed.

Lemma filter_nonempty_strings ss :
  Forall (fun s => s <> "") ss ->
  List.filter (fun v => negb (is_sentinel v)) (map PStr ss) = map PStr ss.
Proof.
  induction 1 as [|s ss Hs _ IH]; [reflexivity|].
  cbn [map List.filter]. rewrite IH.
  destruct s; [congruence|reflexivity].
Qed.

Lemma leaves_strings ss : flat_map leaves (map PStr ss) = map PStr ss.
Proof. induction ss as [|s ss IH]; [reflexivity|]. cbn. now rewrite IH. Qed.

(** C8, as amended. Normalization idempotence: a flat sequence of strings
    none of which is the empty string comes back from [flatten] unchanged,
    whether it is passed as one argument or as the arguments themselves. *)
Theorem flatten_flat_nonempty_strings (k : kind) (ss : list string) :
  Forall (fun s => s <> "") ss ->
  flat_strings_unchanged k ss /\ flatten (map PStr ss) = map PStr ss.
Proof.
  intros H. unfold flat_strings_unchanged.
  rewrite !flatten_leaves. cbn [flat_map]. rewrite leaves_seq, app_nil_r.
  rewrite leaves_strings. split; now apply filter_nonempty_strings.
Qed.

Lemma flatten_flat_nonempty_strings_witness :
  Forall (fun s => s <> "") ["ffmpeg"; "-i"; "in.mp4"]
  /\ flat_strings_unchanged KList ["ffmpeg"; "-i"; "in.mp4"].
Proof.
  assert (H : Forall (fun s : string => s <> "") ["ffmpeg"; "-i"; "in.mp4"]).
  { repeat constructor; discriminate. }
  split; [exact H|].
  exact (proj1 (flatten_flat_nonempty_strings KList _ H)).
Defined.

(** C8, as stated, fails: the empty string is a blocked sentinel, so a flat
    sequence of strings that contains it comes back shorter. *)
Lemma flatten_flat_strings_counterexample :
  ~ flat_strings_unchanged KList ["a"; ""]
  /\ flatten [PSeq KList [PStr "a"; PStr ""]] = [PStr "a"].
Proof. split; [discriminate|reflexivity]. Qed.

(** Flattening twice is flattening once. *)
Lemma flatten_idempotent items : flatten (flatten items) = flatten items.
Proof.
  rewrite (flatten_flat (flatten items)) by apply flatten_scalars.
  rewrite flatten_leaves at 1. rewrite flatten_leaves.
  induction (flat_map leaves items) as [|x l IH]; [reflexivity|].
  cbn [List.filter]. destruct (negb (is_sentinel x)) eqn:E; [|exact IH].
  cbn [List.filter]. rewrite E. now f_equal.
Qed.

(** ** Facts about [shell] *)

Ltac shell_simpl :=
  cbn beta iota delta [kw_truthy shell_name negb result emitted environ_after app].

Ltac shell_unfold :=
  unfold shell, assert_binary, drop_preexec, log_error, lift, first_arg,
    bind, ret, raise, emit, os_environ;
  shell_simpl.

(** Case analysis on the innermost test the evaluation is stuck on. *)
Ltac split_stuck :=
  match goal with
  | |- context [match ?x with _ => _ end] =>
      lazymatch x with
      | context [match _ with _ => _ end] => fail
      | _ => destruct x eqn:?
      end
  end.

Ltac shell_cases := shell_unfold; repeat (split_stuck; shell_simpl).

(** [flatten(seq)] and [flatten] given the elements of [seq] as its arguments
    agree. *)
Lemma flatten_tuple k items : flatten [PSeq k items] = flatten items.
Proof.
  unfold flatten, flatten_with. rewrite flatten_gen_cons, kept_default.
  cbn [is_sentinel negb]. rewrite yield_item_seq, isinstance_default.
  apply app_nil_r.
Qed.

(** The argument vector is the strings of the flattened fragments. *)
Lemma normalize_flatten h fragments :
  normalize h fragments = map (py_str h) (flatten fragments).
Proof. unfold normalize. now rewrite flatten_tuple. Qed.

(** The lookup on the search path never runs: the left operand of its guard
    is false whatever the call. *)
Lemma assert_binary_is_dead h argv environ :
  assert_binary h argv environ = Ran environ [] (Returns tt).
Proof. reflexivity. Qed.

(** The first statement: both modes asked for. *)
Lemma shell_both h c environ :
  output c && Popen c = true ->
  shell h c environ =
  Ran environ [Log LError (Text both_message) None] (Raises (ValueError both_message)).
Proof. intros H. shell_unfold. rewrite H. reflexivity. Qed.

(** The skip return: one log line, then [None]. *)
Lemma shell_skipped h c environ :
  output c && Popen c = false -> skip c = true ->
  shell h c environ = Ran environ [command_line h c] (Returns RNone).
Proof.
  intros H1 H2. unfold command_line. shell_unfold. rewrite H1, H2. reflexivity.
Qed.

Lemma shell_environ_unchanged h c environ :
  environ_after (shell h c environ) = environ.
Proof. shell_cases; reflexivity. Qed.

(** C5. Environment isolation: whatever the call and its overlay, the
    process environment after [shell] is the one before it; every
    process-creation primitive the call reaches receives as [env] the merge
    of the process environment with the overlay; and in that merge the
    overlay wins on a key both define. *)
Theorem shell_environment_isolated (h : Host) (c : call)
    (environ : gmap string string) :
  environ_after (shell h c environ) = environ
  /\ Forall (fun kw => kw !! "env" = Some (KwEnv (merged_env environ (env c))))
            (omap spawn_kwargs (emitted (shell h c environ)))
  /\ (forall key,
        merged_env environ (env c) !! key =
        match env c ≫= (fun overlay => overlay !! key) with
        | Some v => Some v
        | None => environ !! key
        end).
Proof.
  split; [apply shell_environ_unchanged|split].
  - shell_cases; cbn [omap spawn_kwargs]; repeat constructor;
      try (now rewrite lookup_delete_ne, lookup_insert_eq by discriminate);
      try (now rewrite lookup_insert_eq).
  - intros key. unfold merged_env. destruct (env c) as [overlay|]; cbn.
    + rewrite lookup_union. destruct (overlay !! key), (environ !! key); reflexivity.
    + reflexivity.
Qed.

(** An overlay at work: the child of [echo hi] gets [A] from the overlay
    and [B] from the process, and the process keeps its own [A]. *)
Example shell_overlay_example :
  shell posix_host (with_env {["A" := "1"]} (plain_call [PStr "echo"; PStr "hi"]))
        {["A" := "0"; "B" := "2"]} =
  Ran {["A" := "0"; "B" := "2"]}
      [Log LInfo (CommandLine "Running" ["echo"; "hi"] (KwVal (PStr "/home/user")))
           (Some true);
       RunCall (Argv ["echo"; "hi"])
               {["env" := KwEnv {["A" := "1"; "B" := "2"]}]}]
      (Returns (RCompleted {| cp_args := Argv ["echo"; "hi"]; returncode := 0 |})).
Proof. vm_compute. reflexivity. Qed.

(** C6. Mutual exclusion: a call with both [output] and [Popen] set raises
    [ValueError] (the specification's InvalidInvocation) whatever its other
    arguments; the only thing it does before is log the error, so no process
    is created, and the environment is untouched. *)
Theorem shell_capture_and_spawn_invalid (h : Host) (c : call)
    (environ : gmap string string) :
  output c = true -> Popen c = true ->
  (exists e, result (shell h c environ) = Raises e /\ InvalidInvocation e)
  /\ emitted (shell h c environ) = [Log LError (Text both_message) None]
  /\ no_spawn (emitted (shell h c environ))
  /\ environ_after (shell h c environ) = environ.
Proof.
  intros Ho Hp. rewrite shell_both by (now rewrite Ho, Hp). cbn.
  repeat split.
  - eexists. split; [reflexivity|]. now exists both_message.
  - repeat constructor.
Qed.

Lemma shell_capture_and_spawn_invalid_witness :
  let c := with_skip (with_confirm (with_mode true true (plain_call [PStr "echo"; PStr "hi"]))) in
  (exists e, result (shell posix_host c ∅) = Raises e /\ InvalidInvocation e)
  /\ emitted (shell posix_host c ∅) = [Log LError (Text both_message) None]
  /\ no_spawn (emitted (shell posix_host c ∅))
  /\ environ_after (shell posix_host c ∅) = ∅.
Proof.
  intros c.
  exact (shell_capture_and_spawn_invalid posix_host c ∅ eq_refl eq_refl).
Defined.

Lemma no_spawn_app evs evs' : no_spawn (evs ++ evs') <-> no_spawn evs /\ no_spawn evs'.
Proof. unfold no_spawn. apply Forall_app. Qed.

Lemma no_spawn_cons e evs : no_spawn (e :: evs) <-> spawns e = false /\ no_spawn evs.
Proof. unfold no_spawn. now rewrite Forall_cons. Qed.

(** Past the first check a call either returns or has reached a
    process-creation primitive. *)
Lemma shell_not_both h c environ :
  output c && Popen c = false ->
  (exists v, result (shell h c environ) = Returns v)
  \/ ~ no_spawn (emitted (shell h c environ)).
Proof.
  intros H. shell_unfold. rewrite H. shell_simpl.
  repeat (split_stuck; shell_simpl);
    try (left; eexists; reflexivity);
    right; rewrite ?no_spawn_app, ?no_spawn_cons; cbn [spawns];
    intuition discriminate.
Qed.

Lemma shell_rejected_iff_both h c environ :
  rejected_before_spawn (shell h c environ) <-> output c = true /\ Popen c = true.
Proof.
  split.
  - intros [(e & He & _) Hn].
    destruct (output c && Popen c) eqn:Hb.
    + now apply andb_true_iff in Hb.
    + destruct (shell_not_both h c environ Hb) as [[v Hv]|Hs]; [congruence|tauto].
  - intros [Ho Hp]. unfold rejected_before_spawn.
    rewrite shell_both by (now rewrite Ho, Hp). cbn. split.
    + eexists. split; [reflexivity|]. now exists both_message.
    + repeat constructor.
Qed.

(** Whatever primitive a call reaches gets its argument vector, or the line
    it joins to. *)
Lemma shell_spawn_commands h c environ :
  Forall (fun cmd => cmd = Argv (normalize h (args c))
                     \/ cmd = ShellLine (join_spaces (normalize h (args c))))
         (omap spawn_command (emitted (shell h c environ))).
Proof.
  shell_cases; cbn [omap spawn_command];
    repeat first [apply List.Forall_nil | apply List.Forall_cons; [auto|]].
Qed.

(** C4, as amended. [shell] has no check for an empty argument vector: a
    call whose fragments normalize to the empty sequence raises
    InvalidInvocation without reaching a process-creation primitive exactly
    when both [output] and [Popen] are set; and any process-creation
    primitive such a call reaches is handed the empty vector, or the empty
    line in shell-string mode. *)
Theorem shell_empty_vector_not_checked (h : Host) (c : call)
    (environ : gmap string string) :
  normalize h (args c) = [] ->
  (rejected_before_spawn (shell h c environ)
   <-> output c = true /\ Popen c = true)
  /\ Forall empty_command (omap spawn_command (emitted (shell h c environ))).
Proof.
  intros E. split; [apply shell_rejected_iff_both|].
  pose proof (shell_spawn_commands h c environ) as H.
  rewrite E in H. exact H.
Qed.

Lemma shell_empty_vector_not_checked_witness :
  let c := with_mode true true (plain_call [PNone; PStr ""; PSeq KTuple []]) in
  normalize posix_host (args c) = []
  /\ (rejected_before_spawn (shell posix_host c ∅)
      <-> output c = true /\ Popen c = true).
Proof.
  intros c. split; [reflexivity|].
  exact (proj1 (shell_empty_vector_not_checked posix_host c ∅ eq_refl)).
Defined.

(** C4, as stated, fails: fragments that normalize to nothing are not
    rejected.  In Run mode the empty vector is handed to [subprocess.run];
    with [skip] the call returns [None]. *)
Lemma shell_empty_vector_counterexample :
  let c := plain_call [PNone; PStr ""; PSeq KTuple []] in
  normalize posix_host (args c) = []
  /\ ~ rejected_before_spawn (shell posix_host c ∅)
  /\ (exists kw, emitted (shell posix_host c ∅) =
                 [command_line posix_host c; RunCall (Argv []) kw])
  /\ shell posix_host (with_skip c) ∅ =
     Ran ∅ [command_line posix_host (with_skip c)] (Returns RNone).
Proof.
  intros c. split; [reflexivity|]. split; [|split].
  - rewrite shell_rejected_iff_both. cbn. intuition discriminate.
  - eexists. reflexivity.
  - reflexivity.
Qed.

Lemma shell_skip_no_spawn h c environ :
  skip c = true -> no_spawn (emitted (shell h c environ)).
Proof.
  intros Hs. destruct (output c && Popen c) eqn:Hb.
  - rewrite shell_both by assumption. repeat constructor.
  - rewrite shell_skipped by assumption. repeat constructor.
Qed.

(** C9, as amended. Skip short-circuit: with [skip] set no process-creation
    primitive is invoked and the environment is untouched, whatever the
    other arguments; and when not both [output] and [Popen] are set and the
    binary lookup passes, the call logs one line at the skip level and
    returns [None]. *)
Theorem shell_skip_short_circuit (h : Host) (c : call)
    (environ : gmap string string) :
  skip c = true ->
  no_spawn (emitted (shell h c environ))
  /\ environ_after (shell h c environ) = environ
  /\ (output c && Popen c = false -> binary_resolves h c ->
      shell h c environ =
      Ran environ
          [Log LSkip
               (CommandLine "Skipping" (normalize h (args c)) (log_cwd h (kwargs c)))
               (Some (echo c))]
          (Returns RNone)).
Proof.
  intros Hs. split; [now apply shell_skip_no_spawn|].
  split; [apply shell_environ_unchanged|].
  intros Hb _. rewrite shell_skipped by assumption.
  unfold command_line. now rewrite Hs.
Qed.

Lemma shell_skip_short_circuit_witness :
  let c := with_skip (with_mode false true (plain_call [PStr "echo"; PInt 3])) in
  skip c = true
  /\ output c && Popen c = false
  /\ binary_resolves posix_host c
  /\ shell posix_host c ∅ =
     Ran ∅ [Log LSkip (CommandLine "Skipping" ["echo"; "3"] (KwVal (PStr "/home/user")))
                (Some true)]
         (Returns RNone).
Proof.
  intros c.
  assert (Hb : binary_resolves posix_host c).
  { right. exists "echo", ["3"]. split; [reflexivity|]. now exists "/usr/bin/echo". }
  split; [reflexivity|]. split; [reflexivity|]. split; [exact Hb|].
  exact (proj2 (proj2 (shell_skip_short_circuit posix_host c ∅ eq_refl)) eq_refl Hb).
Defined.

(** C9, as stated, fails: with [skip], [output] and [Popen] all set the call
    raises [ValueError] and logs at the error level, not the skip level. *)
Lemma shell_skip_counterexample :
  let c := with_skip (with_mode true true (plain_call [PStr "echo"])) in
  skip c = true
  /\ shell posix_host c ∅ =
     Ran ∅ [Log LError (Text both_message) None] (Raises (ValueError both_message))
  /\ result (shell posix_host c ∅) <> Returns RNone.
Proof. intros c. split; [reflexivity|]. split; [reflexivity|discriminate]. Qed.

Lemma shell_declined h c environ :
  output c && Popen c = false -> skip c = false -> declined h c = true ->
  result (shell h c environ) = Returns RNone.
Proof.
  unfold declined. intros H1 H2 H3. apply andb_true_iff in H3 as [H3 H4].
  shell_unfold. rewrite H1, H2. shell_simpl.
  repeat (split_stuck; shell_simpl); try reflexivity; congruence.
Qed.

Lemma shell_success h c environ v :
  result (shell h c environ) = Returns v ->
  skip c = false -> declined h c = false ->
  success_shape c v.
Proof.
  unfold declined, success_shape. intros Hr Hs Hd. revert Hr.
  shell_unfold. rewrite Hs.
  destruct (output c), (Popen c), (confirm c); cbn [andb] in Hd |- *;
    shell_simpl; try rewrite Hd; shell_simpl;
    repeat (split_stuck; shell_simpl);
    intros Hr; try discriminate; inversion Hr; eauto.
Qed.

(** C10. The two no-op outcomes are one value: a skipped call and a call
    whose confirmation is declined both return [None], whatever the hosts
    and the other arguments, so the return value does not tell them apart;
    and a call that is neither skipped nor declined and returns, returns a
    string in Capture mode, a process handle in Spawn mode and a
    completed-process result in Run mode, none of them [None]. *)
Theorem shell_noop_outcomes_identical (h1 h2 : Host) (c1 c2 : call)
    (environ1 environ2 : gmap string string) :
  output c1 && Popen c1 = false -> skip c1 = true ->
  output c2 && Popen c2 = false -> skip c2 = false -> declined h2 c2 = true ->
  result (shell h1 c1 environ1) = Returns RNone
  /\ result (shell h2 c2 environ2) = Returns RNone
  /\ result (shell h1 c1 environ1) = result (shell h2 c2 environ2)
  /\ (forall h c environ v,
        result (shell h c environ) = Returns v ->
        skip c = false -> declined h c = false ->
        success_shape c v /\ v <> RNone).
Proof.
  intros Hb1 Hs1 Hb2 Hs2 Hd2.
  assert (R1 : result (shell h1 c1 environ1) = Returns RNone)
    by now rewrite shell_skipped.
  assert (R2 : result (shell h2 c2 environ2) = Returns RNone)
    by now apply shell_declined.
  split; [exact R1|]. split; [exact R2|]. split; [congruence|].
  intros h c environ v Hr Hs Hd.
  pose proof (shell_success h c environ v Hr Hs Hd) as Hv.
  split; [exact Hv|].
  intros ->. unfold success_shape in Hv.
  destruct (output c), (Popen c); destruct Hv; discriminate.
Qed.

Lemma shell_noop_outcomes_identical_witness :
  let c1 := with_skip (plain_call [PStr "echo"; PStr "hi"]) in
  let c2 := with_confirm (plain_call [PStr "echo"; PStr "hi"]) in
  let c3 := plain_call [PStr "false"] in
  result (shell posix_host c1 ∅) = Returns RNone
  /\ result (shell posix_host c2 ∅) = Returns RNone
  /\ result (shell posix_host c1 ∅) = result (shell posix_host c2 ∅)
  /\ result (shell posix_host c3 ∅) =
     Returns (RCompleted {| cp_args := Argv ["false"]; returncode := 1 |})
  /\ RCompleted {| cp_args := Argv ["false"]; returncode := 1 |} <> RNone.
Proof.
  intros c1 c2 c3.
  destruct (shell_noop_outcomes_identical posix_host posix_host c1 c2 ∅ ∅
              eq_refl eq_refl eq_refl eq_refl eq_refl) as (R1 & R2 & R3 & S).
  assert (R4 : result (shell posix_host c3 ∅) =
               Returns (RCompleted {| cp_args := Argv ["false"]; returncode := 1 |}))
    by reflexivity.
  exact (conj R1 (conj R2 (conj R3
           (conj R4 (proj2 (S posix_host c3 ∅ _ R4 eq_refl eq_refl)))))).
Defined.

(** C1. The guard of the binary lookup tests the name [shell], which is the
    function itself, so the lookup never runs.  For the missing binary of
    the specification's scenario, which is not on the search path and is not
    run in shell-string mode: in Run mode no [shutil.which] query is made
    and the vector reaches [subprocess.run], whose failure is what the
    caller sees, so the error does not come before the spawn attempt; with
    [skip] set the call returns [None] and raises nothing. *)
Theorem shell_missing_binary_not_detected :
  let c := plain_call [PSeq KList [PStr "nonexistent_binary_xyz"]] in
  normalize posix_host (args c) = ["nonexistent_binary_xyz"]
  /\ shutil_which posix_host "nonexistent_binary_xyz" = None
  /\ kw_get_truthy (kwargs c) "shell" = false
  /\ (exists kw,
        emitted (shell posix_host c ∅) =
        [command_line posix_host c; RunCall (Argv ["nonexistent_binary_xyz"]) kw])
  /\ ~ no_spawn (emitted (shell posix_host c ∅))
  /\ result (shell posix_host c ∅) =
     Raises (FileNotFoundError "[Errno 2] No such file or directory")
  /\ shell posix_host (with_skip c) ∅ =
     Ran ∅ [command_line posix_host (with_skip c)] (Returns RNone)
  /\ ~ (exists e, result (shell posix_host (with_skip c) ∅) = Raises e
                  /\ BinaryNotFound e).
Proof.
  intros c.
  split; [reflexivity|]. split; [reflexivity|]. split; [reflexivity|].
  split; [eexists; reflexivity|].
  split.
  { intros H. apply no_spawn_cons in H as [_ H].
    apply no_spawn_cons in H as [H _]. discriminate. }
  split; [reflexivity|]. split; [reflexivity|].
  intros (e & H & _). discriminate.
Qed.

Module StdinWrapperFacts.
Import StdinWrapper.












Lemma run_reaches schedule st st' : run schedule st = Some st' -> reaches st st'.
Proof.
  revert st. induction schedule as [|a rest IH]; cbn; intros st.
  - intros [= ->]. apply rtc_refl.
  - destruct (fire a st) as [st1|] eqn:F; [|discriminate].
    intros R. apply rtc_l with st1; [now exists a|now apply IH].
Qed.










(** After that run the worker has not left its loop: it tested the flag
    before [close] cleared it and now waits in [get] on the empty queue. *)
Lemma worker_left_waiting :
  worker two_chunk_final = AtGet /\ worker_step two_chunk_final = None.
Proof. split; reflexivity. Qed.

(** Once the pipe is closed it stays closed and nothing more is written to
    it. *)
Lemma step_pipe_frozen st st' :
  step st st' -> pipe_open st = false ->
  pipe_open st' = false /\ pipe st' = pipe st.
Proof.
  destruct st as [q u l po p ex w cl sc]. cbn. intros [a F] ->.
  destruct a; cbn in F.
  - unfold producer_step in F. cbn in F.
    destruct cl as [[]|]; cbn in F.
    + destruct (Nat.eqb u 0); inversion F; subst; auto.
    + inversion F; subst; auto.
    + inversion F; subst; auto.
    + destruct ex; inversion F; subst; auto.
    + discriminate.
    + destruct sc as [|[c|] rest]; try discriminate.
      * unfold write, put in F. cbn [queue] in F.
        destruct (Nat.ltb _ _); inversion F; subst; auto.
      * inversion F; subst; auto.
  - unfold worker_step in F. cbn in F.
    destruct w as [| |c| | |lost e]; try discriminate.
    + inversion F; subst; auto.
    + destruct q; inversion F; subst; auto.
    + inversion F; subst; auto.
    + destruct u; inversion F; subst; auto.
  - inversion F; subst; auto.
  - destruct w; try discriminate. destruct ex; inversion F; subst; auto.
  - unfold close_breaks in F. cbn in F.
    destruct cl as [[]|]; try discriminate. destruct p; discriminate.
Qed.

Lemma pipe_frozen st st' :
  reaches st st' -> pipe_open st = false ->
  pipe_open st' = false /\ pipe st' = pipe st.
Proof.
  induction 1 as [st|st st1 st2 S _ IH]; [auto|].
  intros O. destruct (step_pipe_frozen st st1 S O) as [O1 P1].
  destruct (IH O1) as [O2 P2]. split; congruence.
Qed.

(** With the worker gone and the queue full, no step makes room. *)
Lemma step_jammed st st' :
  step st st' -> worker_gone (worker st) = true ->
  maxsize <= List.length (queue st) ->
  worker st' = worker st /\ queue st' = queue st.
Proof.
  destruct st as [q u l po p ex w cl sc]. cbn. intros [a F] G Q.
  destruct a; cbn in F.
  - unfold producer_step in F. cbn in F.
    destruct cl as [[]|]; cbn in F.
    + destruct (Nat.eqb u 0); inversion F; subst; auto.
    + inversion F; subst; auto.
    + inversion F; subst; auto.
    + destruct ex; inversion F; subst; auto.
    + discriminate.
    + destruct sc as [|[c|] rest]; try discriminate.
      * unfold write, put in F. cbn [queue] in F.
        destruct (Nat.ltb_spec (List.length q) maxsize); [lia|discriminate].
      * inversion F; subst; auto.
  - unfold worker_step in F. cbn in F. destruct w; discriminate.
  - inversion F; subst; auto.
  - destruct w; discriminate.
  - unfold close_breaks in F. cbn in F.
    destruct cl as [[]|]; try discriminate.
    destruct p; [discriminate|]. destruct po, ex; inversion F; subst; auto.
Qed.

Lemma jammed_forever c st st' :
  reaches st st' -> worker_gone (worker st) = true ->
  maxsize <= List.length (queue st) ->
  write c st' = Blocked.
Proof.
  intros R G Q.
  assert (H : worker st' = worker st /\ queue st' = queue st).
  { induction R as [st|st st1 st2 S _ IH]; [auto|].
    destruct (step_jammed st st1 S G Q) as [W1 Q1].
    destruct IH as [W2 Q2]; [congruence|congruence|]. split; congruence. }
  destruct H as [_ H]. unfold write, put. rewrite H.
  destruct (Nat.ltb_spec (List.length (queue st)) maxsize); [lia|reflexivity].
Qed.

(** C3, as amended. [write] does not look at the flag or at the pipe: after
    [close] a write is never rejected.  It puts the chunk on the queue and
    returns while fewer than ten chunks are queued, and blocks when the
    queue is full; whatever runs after it, the chunk is never written to the
    closed pipe. *)
Theorem write_after_close_not_rejected (c : chunk) (st : state) :
  closed st ->
  ~ write_rejected c st
  /\ (List.length (queue st) < maxsize ->
        exists st1, write c st = Returned st1
                    /\ queue st1 = queue st ++ [c]
                    /\ unfinished st1 = S (unfinished st))
  /\ (maxsize <= List.length (queue st) -> write c st = Blocked)
  /\ (forall st1 st2,
        write c st = Returned st1 -> reaches st1 st2 ->
        pipe_open st2 = false /\ pipe st2 = pipe st).
Proof.
  intros [O L]. unfold write_rejected, write, put.
  split; [|split; [|split]].
  - intros [e E]. destruct (Nat.ltb _ _); discriminate.
  - intros Q. destruct (Nat.ltb_spec (List.length (queue st)) maxsize); [|lia].
    eexists. split; [reflexivity|]. split; reflexivity.
  - intros Q.
    destruct (Nat.ltb_spec (List.length (queue st)) maxsize); [lia|reflexivity].
  - intros st1 st2 W R. destruct (Nat.ltb _ _); [|discriminate].
    injection W as <-. apply pipe_frozen in R; [|exact O]. exact R.
Qed.

Lemma write_after_close_not_rejected_witness :
  closed after_close
  /\ ~ write_rejected "late" after_close
  /\ write "late" after_close =
     Returned (State ["late"] 1 false false [] true AtGet None [Write "late"])
  /\ pipe (set_script [Write "late"] late_lost) = pipe after_close.
Proof.
  assert (C : closed after_close) by (split; reflexivity).
  destruct (write_after_close_not_rejected "late" after_close C)
    as (N & _ & _ & F).
  split; [exact C|]. split; [exact N|]. split; [reflexivity|].
  refine (proj2 (F (State ["late"] 1 false false [] true AtGet None [Write "late"])
                   (set_script [Write "late"] late_lost) eq_refl _)).
  apply run_reaches with [Worker; Worker]. reflexivity.
Defined.

(** C3, as stated, fails.  After [close()] has returned, [write("late")]
    returns normally instead of being rejected; the worker takes the chunk,
    fails on the closed pipe and dies with it, so the chunk never reaches
    the pipe and the producer is told nothing.  With the worker gone, the
    eleventh further write finds the queue full and blocks for ever. *)
Lemma write_after_close_counterexample :
  run [Producer; Worker; Producer; Producer; Producer; ChildExits; Producer]
      (init [Close; Write "late"]) = Some after_close
  /\ closed after_close
  /\ ~ write_rejected "late" after_close
  /\ run [Producer; Worker; Worker] after_close = Some late_lost
  /\ (let full := State (repeat "more" maxsize) 11 false false [] true
                        (Crashed ["late"] (ValueError "I/O operation on closed file"))
                        None [Write "more"] in
      run (repeat Producer maxsize)
          (set_script (repeat (Write "more") (S maxsize)) late_lost) = Some full
      /\ forall st, reaches full st -> write "more" st = Blocked).
Proof.
  split; [reflexivity|]. split; [split; reflexivity|].
  split; [intros [e E]; discriminate|]. split; [reflexivity|].
  split; [reflexivity|].
  intros st R. apply (jammed_forever "more" _ st R); [reflexivity|].
  cbn. unfold maxsize. lia.
Qed.

End StdinWrapperFacts.

(** ** More about [flatten], and [every] *)

Lemma yield_item_yieldable block unpack v :
  kept block v = true -> Forall (yieldable block unpack) (yield_item block unpack v).
Proof.
  induction v as [| | | |k items IH] using pyval_nested_ind; intros K;
    try (repeat constructor; assumption).
  rewrite yield_item_seq. destruct (isinstance k unpack) eqn:I.
  - clear K. induction IH as [|x rest Hx _ IHrest]; [constructor|].
    rewrite flatten_gen_cons. apply Forall_app. split; [|exact IHrest].
    destruct (kept block x) eqn:Kx; [now apply Hx|constructor].
  - repeat constructor; assumption.
Qed.

(** X1. Whatever [block] and [unpack] are given, no element of [flatten]'s
    output is in a non-empty [block], and none is a container of a kind in
    [unpack]: blocked values and unpackable containers are removed at every
    depth, not only at the top. *)
Theorem flatten_with_yieldable (block : option (list pyval)) (unpack : list kind)
    (items : list pyval) :
  Forall (yieldable block unpack) (flatten_with block unpack items).
Proof.
  unfold flatten_with. induction items as [|x rest IH]; [constructor|].
  rewrite flatten_gen_cons. apply Forall_app. split; [|exact IH].
  destruct (kept block x) eqn:K; [now apply yield_item_yieldable|constructor].
Qed.

(** X2. [flatten] of two argument tuples put end to end is the two results
    put end to end, for any [block] and [unpack]. *)
Theorem flatten_with_app (block : option (list pyval)) (unpack : list kind)
    (xs ys : list pyval) :
  flatten_with block unpack (xs ++ ys) =
  flatten_with block unpack xs ++ flatten_with block unpack ys.
Proof.
  unfold flatten_with, flatten_gen.
  now rewrite List.filter_app, List.flat_map_app.
Qed.

Lemma kept_none v : kept None v = true.
Proof. reflexivity. Qed.

Lemma yield_item_unblocked v :
  yield_item None default_unpack v = leaves v.
Proof.
  induction v as [| | | |k items IH] using pyval_nested_ind; try reflexivity.
  rewrite yield_item_seq, isinstance_default, leaves_seq.
  induction IH as [|x rest Hx _ IHrest]; [reflexivity|].
  rewrite flatten_gen_cons, kept_none. cbn [flat_map]. now rewrite Hx, IHrest.
Qed.

(** With [block=None] nothing is dropped: the output is the leaves. *)
Lemma flatten_unblocked items :
  flatten_with None default_unpack items = flat_map leaves items.
Proof.
  unfold flatten_with. induction items as [|x rest IH]; [reflexivity|].
  rewrite flatten_gen_cons, kept_none. cbn [flat_map].
  now rewrite yield_item_unblocked, IH.
Qed.

Lemma py_in_sentinels v : py_in v [PNone; PStr ""] = is_sentinel v.
Proof.
  destruct v as [| | |s|]; try reflexivity.
  destruct s; reflexivity.
Qed.

Lemma existsb_same {A} (f g : A -> bool) l :
  (forall x, f x = g x) -> existsb f l = existsb g l.
Proof. intros H. induction l as [|x l IH]; [reflexivity|]. cbn. now rewrite H, IH. Qed.

Lemma filter_all {A} (p : A -> bool) l :
  existsb (fun x => negb (p x)) l = false -> List.filter p l = l.
Proof.
  induction l as [|x l IH]; [reflexivity|]. cbn.
  destruct (p x); cbn; [|discriminate]. intros H. now rewrite IH.
Qed.

(** X3. [every] gives up exactly when some leaf of its arguments, at any
    depth, is [None] or the empty string; otherwise it returns all the
    leaves, and that is also what [flatten] returns on the same arguments. *)
Theorem every_all_or_nothing (items : list pyval) :
  every items =
  (if existsb is_sentinel (flat_map leaves items) then None
   else Some (flat_map leaves items))
  /\ (forall l, every items = Some l -> flatten items = l).
Proof.
  assert (E : every items =
              if existsb is_sentinel (flat_map leaves items) then None
              else Some (flat_map leaves items)).
  { unfold every, every_with. rewrite flatten_unblocked.
    rewrite (existsb_same _ is_sentinel) by (intros; apply py_in_sentinels).
    reflexivity. }
  split; [exact E|].
  intros l. rewrite E.
  destruct (existsb is_sentinel (flat_map leaves items)) eqn:X; [discriminate|].
  intros [= <-]. rewrite flatten_leaves. apply filter_all.
  rewrite <- X. apply existsb_same. intros x. now destruct (is_sentinel x).
Qed.

(** ** More about [shell] *)

(** X4. One call reaches at most one process-creation primitive. *)
Theorem shell_at_most_one_spawn (h : Host) (c : call)
    (environ : gmap string string) :
  List.length (omap spawn_command (emitted (shell h c environ))) <= 1.
Proof. shell_cases; cbn [omap list_omap spawn_command List.length]; lia. Qed.

(** X5. A call that passes the mutual-exclusion check logs its command line
    before anything else: the verb, the argument vector and the working
    directory, at the skip level when skipped and the info level
    otherwise. *)
Theorem shell_logs_command_first (h : Host) (c : call)
    (environ : gmap string string) :
  output c && Popen c = false ->
  exists rest, emitted (shell h c environ) = command_line h c :: rest.
Proof.
  intros H. unfold command_line. shell_unfold. rewrite H. shell_simpl.
  repeat (split_stuck; shell_simpl); eexists; reflexivity.
Qed.

Lemma shell_logs_command_first_witness :
  exists rest,
    emitted (shell posix_host (plain_call [PStr "false"]) ∅) =
    Log LInfo (CommandLine "Running" ["false"] (KwVal (PStr "/home/user")))
        (Some true) :: rest.
Proof.
  exact (shell_logs_command_first posix_host (plain_call [PStr "false"]) ∅ eq_refl).
Defined.

(** X6. A declined confirmation: the call logs its command line (and, in
    shell-string mode, the warning, whose text is empty since [confirm] is
    set), prompts once, creates no process, leaves the environment alone and
    returns [None]. *)
Theorem shell_declined_trace (h : Host) (c : call)
    (environ : gmap string string) :
  output c && Popen c = false -> skip c = false -> declined h c = true ->
  shell h c environ =
  Ran environ
      (command_line h c
       :: (if kw_get_truthy (kwargs c) "shell"
           then [Log LWarning (Text "") None] else [])
       ++ [Confirm confirm_prompt])
      (Returns RNone).
Proof.
  unfold declined, command_line. intros H1 H2 H3.
  apply andb_true_iff in H3 as [H3 H4].
  shell_unfold. rewrite H1, H2, H3. shell_simpl.
  destruct (kw_get_truthy (kwargs c) "shell"); shell_simpl;
    rewrite H4; reflexivity.
Qed.

Lemma shell_declined_trace_witness :
  shell posix_host (with_confirm (plain_call [PStr "echo"; PStr "hi"])) ∅ =
  Ran ∅
      [Log LInfo (CommandLine "Running" ["echo"; "hi"] (KwVal (PStr "/home/user")))
           (Some true);
       Confirm confirm_prompt]
      (Returns RNone).
Proof.
  exact (shell_declined_trace posix_host
           (with_confirm (plain_call [PStr "echo"; PStr "hi"])) ∅
           eq_refl eq_refl eq_refl).
Defined.

(** X7. The platform filter: on Windows ([os.name == "nt"]) no
    process-creation primitive receives [preexec_fn]; elsewhere it receives
    the caller's; and on every platform every other keyword argument but
    [env] is passed on as the caller gave it. *)
Theorem shell_kwargs_passed (h : Host) (c : call)
    (environ : gmap string string) :
  Forall (fun kw =>
            kw !! "preexec_fn" =
              (if String.eqb (os_name h) "nt" then None
               else kwargs c !! "preexec_fn")
            /\ forall key, key <> "env" -> key <> "preexec_fn" ->
                 kw !! key = kwargs c !! key)
         (omap spawn_kwargs (emitted (shell h c environ))).
Proof.
  shell_cases; cbn [omap spawn_kwargs];
    repeat first [apply List.Forall_nil | apply List.Forall_cons];
    (split;
     [ rewrite ?lookup_delete_eq, ?lookup_insert_ne by discriminate; reflexivity
     | intros key K1 K2;
       rewrite ?lookup_delete_ne, ?lookup_insert_ne by congruence; reflexivity ]).
Qed.

(** X8. What the primitive is called with: in shell-string mode (a truthy
    [shell] keyword argument) the argument vector joined by single spaces
    into one line, otherwise the vector itself. *)
Theorem shell_command_shape (h : Host) (c : call)
    (environ : gmap string string) :
  Forall (fun cmd =>
            cmd = if kw_get_truthy (kwargs c) "shell"
                  then ShellLine (join_spaces (normalize h (args c)))
                  else Argv (normalize h (args c)))
         (omap spawn_command (emitted (shell h c environ))).
Proof.
  shell_unfold.
  destruct (kw_get_truthy (kwargs c) "shell"); shell_simpl;
    repeat (split_stuck; shell_simpl); cbn [omap spawn_command];
    repeat first [apply List.Forall_nil | apply List.Forall_cons; [reflexivity|]].
Qed.

(** X9. The shell-string warning: a call in shell-string mode that is not
    skipped logs one warning right after its command line, and the text of
    that warning is empty when [confirm] is set, since the whole message is
    multiplied by [not confirm]. *)
Theorem shell_string_warning (h : Host) (c : call)
    (environ : gmap string string) :
  output c && Popen c = false -> skip c = false ->
  kw_get_truthy (kwargs c) "shell" = true ->
  (exists rest,
     emitted (shell h c environ) =
     command_line h c :: Log LWarning (Text (shell_warning (confirm c))) None :: rest)
  /\ shell_warning true = "".
Proof.
  intros H1 H2 H3. split; [|reflexivity].
  unfold command_line. shell_unfold. rewrite H1, H2, H3. shell_simpl.
  repeat (split_stuck; shell_simpl); eexists; reflexivity.
Qed.

Lemma shell_string_warning_witness :
  let c := {| args := [PStr "echo"; PStr "hi"]; output := false; Popen := false;
              env := None; confirm := true; threaded_stdin := false;
              skip := false; echo := true;
              kwargs := {["shell" := KwVal (PBool true)]} |} in
  exists rest,
    emitted (shell posix_host c ∅) =
    command_line posix_host c :: Log LWarning (Text "") None :: rest.
Proof.
  intros c.
  exact (proj1 (shell_string_warning posix_host c ∅ eq_refl eq_refl eq_refl)).
Defined.

(** X10. The buffered writer is installed exactly on request: a call that
    returns a process handle is in Spawn mode, and the handle's [stdin] is
    the wrapper, with its worker thread started, if and only if
    [threaded_stdin] is set; in the other modes [threaded_stdin] starts no
    thread. *)
Theorem shell_threaded_stdin (h : Host) (c : call)
    (environ : gmap string string) :
  (forall p, result (shell h c environ) = Returns (RPopen p) ->
     Popen c = true
     /\ stdin p = (if threaded_stdin c then Wrapped else RawPipe)
     /\ (In (ThreadStart (pid p)) (emitted (shell h c environ))
         <-> threaded_stdin c = true))
  /\ (Popen c = false ->
      Forall (fun e => forall p, e <> ThreadStart p) (emitted (shell h c environ))).
Proof.
  split.
  - intros p. shell_cases; intros [= <-]; cbn [stdin pid];
      (split; [reflexivity|]); (split; [reflexivity|]);
      rewrite ?in_app_iff; cbn [In]; split; intros H;
      try reflexivity; try discriminate; try tauto;
      repeat (destruct H as [H|H]; try discriminate; try tauto).
  - intros P. shell_unfold. rewrite P. rewrite ?andb_false_r. shell_simpl.
    repeat (split_stuck; shell_simpl);
      repeat first [apply List.Forall_nil | apply List.Forall_cons; [intros q; discriminate|]].
Qed.

(** ** More about [StdinWrapper] *)

Module WriterOrderFacts.
Import StdinWrapper WriterOrder.

Lemma conserved_init calls : conserved calls (init calls).
Proof. unfold conserved, init, maxsize. cbn. repeat split; lia. Qed.

Lemma conserved_step calls st st' :
  conserved calls st -> step st st' -> conserved calls st'.
Proof.
  destruct st as [q u l po p ex w cl sc].
  unfold conserved. cbn. intros (I1 & I2 & I3 & I4) [a F].
  destruct a; cbn in F.
  - unfold producer_step in F. cbn in F.
    destruct cl as [[]|]; cbn in F.
    + destruct (Nat.eqb u 0); inversion F; subst; cbn; auto.
    + inversion F; subst; cbn; auto.
    + inversion F; subst; cbn; auto.
    + destruct ex; inversion F; subst; cbn; auto.
    + discriminate.
    + destruct sc as [|[c|] rest]; try discriminate.
      * unfold write, put in F. cbn [queue] in F.
        destruct (Nat.ltb_spec (List.length q) maxsize); [|discriminate].
        inversion F; subst; cbn in *.
        split; [now rewrite <- I1, <- !app_assoc|].
        rewrite length_app. cbn. repeat split; lia.
      * inversion F; subst; cbn in *. auto.
  - unfold worker_step in F. cbn in F.
    destruct w as [| |c| | |lost e]; try discriminate.
    + inversion F; subst; cbn. destruct l; cbn; repeat split; auto; lia.
    + destruct q as [|c rest]; inversion F; subst; cbn in *.
      split; [assumption|]. repeat split; lia.
    + destruct po; inversion F; subst; cbn in *.
      * split; [now rewrite <- I1, <- app_assoc|]. auto.
      * auto.
    + destruct u as [|n]; [cbn in I2; lia|].
      inversion F; subst; cbn in *. split; [assumption|]. repeat split; lia.
  - inversion F; subst; cbn. auto.
  - destruct w; try discriminate. destruct ex; inversion F; subst; cbn in *; auto.
  - unfold close_breaks in F. cbn in F.
    destruct cl as [[]|]; try discriminate.
    destruct p; [discriminate|].
    destruct po, ex; inversion F; subst; cbn in *; auto.
Qed.

Lemma conserved_reaches calls st :
  reaches (init calls) st -> conserved calls st.
Proof.
  intros R.
  assert (H : forall a b, reaches a b -> conserved calls a -> conserved calls b).
  { induction 1 as [|a b c S _ IH]; [auto|].
    intros I. apply IH. now apply (conserved_step calls a). }
  apply (H _ _ R), conserved_init.
Qed.

(** X11. FIFO order: whatever calls the producer makes and however the
    threads interleave, the chunks written to the pipe, then the one in the
    worker's hands, then the queue, then the writes not yet made are the
    chunks of the producer's writes, in call order; so what the pipe has
    received is always a prefix of what was written. *)
Theorem pipe_is_fifo (calls : list op) (st : state) :
  reaches (init calls) st ->
  pipe st ++ held (worker st) ++ queue st ++ pending (script st) = pending calls
  /\ pipe st `prefix_of` pending calls.
Proof.
  intros R. destruct (conserved_reaches calls st R) as (I1 & _).
  split; [exact I1|]. rewrite <- I1. now apply prefix_app_r.
Qed.

Lemma pipe_is_fifo_witness :
  reaches (init (writes_then_close ["a"; "b"])) two_chunk_final
  /\ pipe two_chunk_final `prefix_of` ["a"; "b"].
Proof.
  assert (R : reaches (init (writes_then_close ["a"; "b"])) two_chunk_final).
  { apply StdinWrapperFacts.run_reaches with two_chunk_schedule. reflexivity. }
  exact (conj R (proj2 (pipe_is_fifo _ _ R))).
Defined.

(** X12. The bounded buffer: in every reachable state the queue holds at
    most ten chunks, and its count of unfinished tasks is the chunks queued
    plus the one, if any, that the worker has taken and not yet
    acknowledged, so never more than eleven. *)
Theorem queue_is_bounded (calls : list op) (st : state) :
  reaches (init calls) st ->
  List.length (queue st) <= maxsize
  /\ unfinished st = List.length (queue st) + owed (worker st)
  /\ unfinished st <= S maxsize.
Proof.
  intros R. destruct (conserved_reaches calls st R) as (_ & I2 & I3 & I4).
  split; [exact I3|]. split; [exact I2|]. lia.
Qed.

Lemma queue_is_bounded_witness :
  reaches (init (writes_then_close ["a"; "b"])) two_chunk_final
  /\ List.length (queue two_chunk_final) <= maxsize.
Proof.
  assert (R : reaches (init (writes_then_close ["a"; "b"])) two_chunk_final).
  { apply StdinWrapperFacts.run_reaches with two_chunk_schedule. reflexivity. }
  exact (conj R (proj1 (queue_is_bounded _ _ R))).
Defined.

Lemma producer_writes_one q c calls :
  List.length q < maxsize ->
  producer_step (loaded q (Write c :: calls)) = Some (loaded (q ++ [c]) calls).
Proof.
  intros L. unfold producer_step, write, put, loaded. cbn [closing script queue].
  destruct (Nat.ltb_spec (List.length q) maxsize); [|lia].
  unfold set_script. cbn. rewrite length_app. cbn.
  do 2 f_equal. lia.
Qed.

(** The producer alone, writing into a queue with room for all it writes. *)
Lemma producer_fills (cs : list chunk) : forall q rest,
  List.length q + List.length cs <= maxsize ->
  run (repeat Producer (List.length cs)) (loaded q (map Write cs ++ rest)) =
  Some (loaded (q ++ cs) rest).
Proof.
  induction cs as [|c cs IH]; intros q rest L.
  - cbn. now rewrite app_nil_r.
  - cbn [List.length repeat map app run fire]. cbn in L.
    rewrite producer_writes_one by lia.
    rewrite IH by (rewrite length_app; cbn; lia).
    now rewrite <- app_assoc.
Qed.

(** X13. Backpressure: a producer that writes while the worker does not run
    gets its first ten writes through at once; its eleventh blocks, and goes
    through as soon as the worker has taken one chunk off the queue. *)
Theorem eleventh_write_blocks (cs : list chunk) (c : chunk) (rest : list op) :
  List.length cs = maxsize ->
  let full := loaded cs (Write c :: rest) in
  run (repeat Producer maxsize) (init (map Write cs ++ Write c :: rest)) = Some full
  /\ write c full = Blocked
  /\ producer_step full = None
  /\ exists st st', run [Worker; Worker] full = Some st
                    /\ write c st = Returned st'
                    /\ queue st' = tl cs ++ [c].
Proof.
  intros L full. subst full.
  split.
  { rewrite <- L. apply (producer_fills cs [] (Write c :: rest)). cbn. lia. }
  assert (B : write c (loaded cs (Write c :: rest)) = Blocked).
  { unfold write, put, loaded. cbn [queue].
    destruct (Nat.ltb_spec (List.length cs) maxsize); [lia|reflexivity]. }
  split; [exact B|]. split.
  { unfold producer_step. cbn [closing script loaded]. fold (loaded cs (Write c :: rest)).
    now rewrite B. }
  destruct cs as [|c0 cs']; [discriminate|].
  eexists. eexists. split; [reflexivity|].
  unfold write, put. cbn [queue]. cbn in L.
  destruct (Nat.ltb_spec (List.length cs') maxsize); [|lia].
  split; reflexivity.
Qed.

Lemma eleventh_write_blocks_witness :
  write "k" (loaded ["a";"b";"c";"d";"e";"f";"g";"h";"i";"j"] [Write "k"]) = Blocked.
Proof.
  exact (proj1 (proj2 (eleventh_write_blocks
                         ["a";"b";"c";"d";"e";"f";"g";"h";"i";"j"] "k" [] eq_refl))).
Defined.

(** X14. A second [close()]: on a wrapper already closed, with nothing
    unacknowledged and the child seen to have exited, [close] runs through
    its four statements without waiting and changes nothing. *)
Theorem second_close_is_noop (st : state) (rest : list op) :
  closed st -> closing st = None -> script st = Close :: rest ->
  unfinished st = 0 -> exited st = true ->
  run (repeat Producer 5) st = Some (set_script rest st).
Proof.
  destruct st as [q u l po p ex w cl sc]. unfold closed. cbn.
  intros [-> ->] -> -> -> ->. reflexivity.
Qed.

Lemma second_close_is_noop_witness :
  run (repeat Producer 5) (set_script [Close] two_chunk_final) =
  Some two_chunk_final.
Proof.
  exact (second_close_is_noop (set_script [Close] two_chunk_final) []
           (conj eq_refl eq_refl) eq_refl eq_refl eq_refl eq_refl).
Defined.

End WriterOrderFacts.

(** ** The small helpers *)

Module UtilsFacts.
Import Utils.

Section Lists.
Context {A : Type}.

Lemma pop_loop_spec (stack : list A) (n : Z) :
  pop_loop stack n =
  if Z.ltb n 0 then inl (IndexError "pop from empty list")
  else inr (skipn (List.length stack - Z.to_nat n) stack).
Proof.
  induction stack as [|x below IH]; cbn [pop_loop List.length].
  - destruct (Z.ltb_spec n 0); destruct (Z.ltb_spec n (Z.of_nat 0)); try lia;
      reflexivity.
  - destruct (Z.ltb_spec n (Z.of_nat (S (List.length below)))).
    + rewrite IH. destruct (Z.ltb_spec n 0); [reflexivity|].
      f_equal. replace (S (List.length below) - Z.to_nat n)
        with (S (List.length below - Z.to_nat n)) by lia.
      reflexivity.
    + destruct (Z.ltb_spec n 0); [lia|].
      replace (S (List.length below) - Z.to_nat n) with 0 by lia. reflexivity.
Qed.

Lemma fill_loop_spec (todo : nat) (fill : unit -> A) (data : list A) :
  fill_loop todo fill data = data ++ repeat (fill tt) todo.
Proof.
  revert data. induction todo as [|n IH]; intros data; cbn.
  - now rewrite app_nil_r.
  - rewrite IH, <- app_assoc. reflexivity.
Qed.

(** X15. [pop_fill] returns exactly [length] items: the first [length] items
    of the data, followed by as many [fill()] values as are missing; and a
    negative [length] does not empty the list quietly but raises
    [IndexError], from the [pop] on the list once it is empty. *)
Theorem pop_fill_spec (data : list A) (fill : unit -> A) (length : Z) :
  pop_fill data fill length =
  (if Z.ltb length 0 then inl (IndexError "pop from empty list")
   else inr (firstn (Z.to_nat length) data
             ++ repeat (fill tt) (Z.to_nat length - List.length data)))
  /\ (forall l, pop_fill data fill length = inr l ->
        Z.of_nat (List.length l) = length).
Proof.
  assert (E : pop_fill data fill length =
    if Z.ltb length 0 then inl (IndexError "pop from empty list")
    else inr (firstn (Z.to_nat length) data
              ++ repeat (fill tt) (Z.to_nat length - List.length data))).
  { unfold pop_fill. rewrite pop_loop_spec.
    destruct (Z.ltb_spec length 0); [reflexivity|].
    rewrite fill_loop_spec, List.length_rev, skipn_rev, rev_involutive.
    f_equal.
    destruct (Nat.le_gt_cases (List.length data) (Z.to_nat length)).
    - replace (List.length data - (List.length data - Z.to_nat length))
        with (List.length data) by lia.
      rewrite !firstn_all2 by lia. f_equal. f_equal. lia.
    - replace (List.length data - (List.length data - Z.to_nat length))
        with (Z.to_nat length) by lia.
      rewrite List.length_firstn. f_equal. f_equal. lia. }
  split; [exact E|].
  intros l. rewrite E. destruct (Z.ltb_spec length 0); [discriminate|].
  intros [= <-]. rewrite length_app, length_firstn, repeat_length. lia.
Qed.

(** X16. [list_get] by the sign of the index: from zero on it never raises
    and gives the item, or [default] past the end; a negative index counts
    from the end; and a negative index before the start raises [IndexError]
    instead of giving [default]. *)
Theorem list_get_spec (data : list A) (index : Z) (default : A) :
  list_get data index default =
  if Z.leb 0 index then inr (nth (Z.to_nat index) data default)
  else if Z.leb (- Z.of_nat (List.length data)) index
       then inr (nth (Z.to_nat (index + Z.of_nat (List.length data))) data default)
       else inl (IndexError "list index out of range").
Proof.
  unfold list_get, py_getitem. cbn zeta.
  destruct (Z.ltb_spec index 0).
  all: repeat match goal with
    | |- context [Z.geb ?a ?b] => destruct (Z.geb_spec a b)
    | |- context [Z.leb ?a ?b] => destruct (Z.leb_spec a b)
    | |- context [Z.ltb ?a ?b] => destruct (Z.ltb_spec a b)
    end; try lia; try reflexivity.
  all: try (rewrite nth_overflow by lia; reflexivity).
  all: match goal with
       | |- context [nth_error ?l ?n] => destruct (nth_error l n) eqn:N
       end;
       [now rewrite (nth_error_nth _ _ _ N) | apply nth_error_None in N; lia].
Qed.

End Lists.

(** X17. [clamp] on integers: with [low <= high] the result lies between
    the bounds and is the value itself when that already does; with the
    bounds crossed it is [low] whatever the value. *)
Theorem clamp_spec (value low high : Z) :
  (low <= high ->
     low <= clamp value low high <= high
     /\ (low <= value <= high -> clamp value low high = value)
     /\ clamp (clamp value low high) low high = clamp value low high)%Z
  /\ (high < low -> clamp value low high = low)%Z.
Proof. unfold clamp. split; intros; repeat split; lia. Qed.


(** *** Strings *)

Lemma split_char_not_nil sep s : split_char sep s <> [].
Proof.
  destruct s as [|ch rest]; cbn; [discriminate|].
  destruct (Ascii.eqb ch sep); [discriminate|].
  destruct (split_char sep rest); discriminate.
Qed.

Lemma concat_split_char sep s :
  String.concat (String sep "") (split_char sep s) = s.
Proof.
  induction s as [|ch rest IH]; [reflexivity|]. cbn [split_char].
  destruct (Ascii.eqb_spec ch sep) as [->|N].
  - pose proof (split_char_not_nil sep rest) as NE.
    destruct (split_char sep rest) as [|p ps] eqn:E; [congruence|].
    cbn [String.concat] in *. cbn. now rewrite IH.
  - destruct (split_char sep rest) as [|p ps] eqn:E.
    + now apply split_char_not_nil in E.
    + cbn [String.concat] in *. destruct ps; cbn in *; now rewrite <- IH.
Qed.

Lemma split_char_chars sep ch s :
  Forall (fun part => has_char ch part = true -> has_char ch s = true)
         (split_char sep s).
Proof.
  induction s as [|c rest IH]; cbn [split_char].
  - repeat constructor. auto.
  - destruct (Ascii.eqb c sep).
    + constructor; [discriminate|].
      eapply Forall_impl; [exact IH|]. cbn. intros p H Hp.
      rewrite (H Hp). apply orb_true_r.
    + destruct (split_char sep rest) as [|p ps] eqn:E;
        [now apply split_char_not_nil in E|].
      inversion IH as [|? ? Hp Hps]; subst. constructor.
      * cbn. destruct (Ascii.eqb c ch); [reflexivity|]. cbn. exact Hp.
      * eapply Forall_impl; [exact Hps|]. cbn. intros q H Hq.
        rewrite (H Hq). apply orb_true_r.
Qed.

Lemma split_char_no_sep sep s :
  Forall (fun part => has_char sep part = false) (split_char sep s).
Proof.
  induction s as [|c rest IH]; cbn [split_char].
  - repeat constructor.
  - destruct (Ascii.eqb c sep) eqn:E.
    + constructor; [reflexivity|exact IH].
    + destruct (split_char sep rest) as [|p ps] eqn:S;
        [now apply split_char_not_nil in S|].
      inversion IH; subst. constructor; [|assumption].
      cbn. now rewrite E.
Qed.

Lemma replace_char_gone (a b : ascii) s :
  a <> b ->
  has_char a (replace_from (String a "") (String b "") 0 s) = false.
Proof.
  intros N. induction s as [|ch rest IH]; [reflexivity|].
  cbn [replace_from String.prefix].
  destruct (ascii_dec a ch) as [->|D].
  - replace (String.prefix "" rest) with true by (now destruct rest).
    cbn [String.length Nat.sub].
    change (has_char ch (String b (replace_from (String ch "") (String b "") 0 rest))
            = false).
    cbn [has_char]. rewrite IH.
    destruct (Ascii.eqb_spec b ch); [congruence|reflexivity].
  - cbn [has_char]. destruct (Ascii.eqb_spec ch a); [congruence|]. exact IH.
Qed.

Lemma removelast_last {A} (l : list A) d :
  l <> [] -> l = removelast l ++ [List.last l d].
Proof. intros H. now apply app_removelast_last. Qed.

(** X19. [decompose] splits a dotted key: the parts are [body] followed by
    [last], so there is always a last part; joined by dots they give back
    the key with its hyphens turned into underscores; and no part contains a
    dot or a hyphen. *)
Theorem decompose_parts (key : string) :
  all (decompose key) = body (decompose key) ++ [last (decompose key)]
  /\ String.concat "." (all (decompose key)) = py_replace key "-" "_"
  /\ Forall (fun part => has_char "." part = false /\ has_char "-" part = false)
            (all (decompose key)).
Proof.
  unfold decompose. cbn [all body last].
  split; [apply removelast_last, split_char_not_nil|].
  split; [apply concat_split_char|].
  pose proof (split_char_no_sep "." (py_replace key "-" "_")) as H1.
  pose proof (split_char_chars "." "-" (py_replace key "-" "_")) as H2.
  rewrite List.Forall_forall in *. intros p Hp. split; [now apply H1|].
  specialize (H2 p Hp).
  destruct (has_char "-" p) eqn:E; [|reflexivity].
  rewrite <- (H2 eq_refl). unfold py_replace.
  apply replace_char_gone. discriminate.
Qed.

Lemma prefix_shorter a s :
  String.prefix (String a (String a "")) s = true ->
  String.prefix (String a "") s = true.
Proof.
  destruct s as [|c rest]; cbn; [discriminate|].
  destruct (ascii_dec a c); [|discriminate].
  intros _. now destruct rest.
Qed.

(** X20. [StringUtils.border] hands [endswith] the iterator
    [reversed(border)], not a string, so none of [border], [dunder] and
    [sunder] ever returns [True]: a name that starts with an underscore
    makes [sunder] raise [TypeError], one that starts with two makes
    [dunder] raise it too, and for every other name they return [False]. *)
Theorem border_never_true (name : string) :
  (forall b, border name b <> inr true)
  /\ dunder name <> inr true
  /\ sunder name <> inr true
  /\ (private name = true -> exists msg, sunder name = inl (TypeError msg))
  /\ (startswith name "__" = true -> exists msg, dunder name = inl (TypeError msg))
  /\ (private name = false -> sunder name = inr false /\ dunder name = inr false).
Proof.
  assert (B : forall b, border name b <> inr true).
  { intros b. unfold border, endswith. destruct (startswith name b); discriminate. }
  split; [exact B|]. split; [apply B|].
  unfold private, sunder, dunder, border, endswith.
  split; [|split; [|split]].
  - destruct (startswith name "_"); discriminate.
  - intros ->. eauto.
  - intros ->. eauto.
  - intros P. rewrite P. split; [reflexivity|].
    destruct (startswith name "__") eqn:D; [|reflexivity].
    unfold startswith in *. apply prefix_shorter in D. congruence.
Qed.

(** *** [DictUtils] *)

Section Dicts.
Context {V : Type}.

Lemma dict_where_lookup (keep : string -> bool) (data : gmap string V) key :
  dict_where keep data !! key = if keep key then data !! key else None.
Proof.
  unfold dict_where. rewrite map_lookup_filter.
  destruct (data !! key) as [v|]; cbn; [|now destruct (keep key)].
  destruct (keep key); case_guard; cbn in *; congruence.
Qed.

(** X21. [filter_dict] key by key: a key of the data is dropped when a
    non-empty [block] holds it or a non-empty [allow] does not, and kept
    with its value otherwise; so [None] and empty containers filter
    nothing, and an empty [allow] allows everything. *)
Theorem filter_dict_lookup (data : gmap string V)
    (block allow : option (list string)) (key : string) :
  filter_dict data block allow !! key =
  if keys_truthy block && bool_decide (key ∈ default [] block) then None
  else if keys_truthy allow && negb (bool_decide (key ∈ default [] allow)) then None
  else data !! key.
Proof.
  unfold filter_dict.
  destruct (keys_truthy block), (keys_truthy allow); cbn [andb];
    rewrite ?dict_where_lookup;
    repeat (case_bool_decide; cbn [negb]); reflexivity.
Qed.

(** X22. [selfless] removes the key [self] and nothing else. *)
Theorem selfless_delete (data : gmap string V) :
  selfless data = delete "self" data.
Proof.
  apply map_eq. intros key. unfold selfless, filter_dict.
  cbn [keys_truthy default]. rewrite dict_where_lookup.
  case_bool_decide as H; cbn [negb].
  - apply list_elem_of_singleton in H as ->. now rewrite lookup_delete_eq.
  - rewrite lookup_delete_ne; [reflexivity|].
    intros <-. apply H. now apply list_elem_of_singleton.
Qed.

End Dicts.

End UtilsFacts.

(** ** [block_modules] *)

Module BlockModulesFacts.
Import Utils BlockModules.

Lemma py_eq_str (a b : string) : py_eq (PStr a) (PStr b) = String.eqb a b.
Proof. reflexivity. Qed.

Lemma scalar_hashable (v : pyval) : is_scalar v = true -> hashable v = true.
Proof. now destruct v. Qed.

(** The [try] loop over scalars never raises; it blocks each of them and
    touches no other entry. *)
Lemma block_all_scalars (keys : list pyval) (sys : table) :
  Forall (fun v => is_scalar v = true) keys ->
  exists blocked,
    block_all keys sys = (blocked, None) /\
    forall k,
      blocked k = if existsb (fun key => py_eq key k) keys
                  then Some Blocked else sys k.
Proof.
  intros H. revert sys. induction H as [|key keys Hkey _ IH]; intros sys.
  - exists sys. now split.
  - cbn [block_all]. rewrite (scalar_hashable _ Hkey).
    destruct (IH (d_set key Blocked sys)) as (blocked & -> & Hb).
    exists blocked. split; [reflexivity|]. intros k. rewrite Hb.
    cbn [existsb]. unfold d_set.
    destruct (existsb _ keys); [now rewrite orb_true_r|].
    rewrite orb_false_r. reflexivity.
Qed.

Lemma flatten_names (names : list string) :
  flatten [PSeq KTuple (map PStr names)] =
  map PStr (filter (fun n => n <> "") names).
Proof.
  rewrite flatten_tuple, flatten_flat.
  - induction names as [|n names IH]; [reflexivity|].
    cbn [map List.filter]. rewrite filter_cons.
    destruct (decide (n <> "")) as [Hn | Hn].
    + replace (negb (is_sentinel (PStr n))) with true
        by (now destruct n).
      cbn [map]. now rewrite IH.
    + apply dec_stable in Hn. subst n. cbn. exact IH.
  - apply List.Forall_forall. intros v Hv. apply in_map_iff in Hv as (n & <- & _).
    reflexivity.
Qed.

Lemma existsb_names (names : list string) (k : pyval) :
  existsb (fun key => py_eq key k) (map PStr names) = true <->
  exists n, In n names /\ k = PStr n.
Proof.
  rewrite existsb_exists. split.
  - intros (key & Hin & Heq). apply in_map_iff in Hin as (n & <- & Hn).
    exists n. split; [exact Hn|].
    destruct k; try discriminate. cbn in Heq.
    apply String.eqb_eq in Heq. now subst.
  - intros (n & Hn & ->). exists (PStr n). split.
    + now apply in_map.
    + cbn. apply String.eqb_refl.
Qed.

(** The [finally] loop over names, none given twice: it does not raise
    when every name that was not in [state] is in the table, it gives
    each name the entry [state] has for it, and leaves the others. *)
Lemma restore_all_names (state : table) (names : list string) (sys : table) :
  List.NoDup names ->
  (forall n, In n names -> state (PStr n) = None -> sys (PStr n) <> None) ->
  exists restored,
    restore_all state (map PStr names) sys = (restored, None) /\
    (forall n, In n names -> restored (PStr n) = state (PStr n)) /\
    (forall k, (forall n, In n names -> k <> PStr n) -> restored k = sys k).
Proof.
  intros Hnd. revert sys.
  induction Hnd as [|n names Hn Hnd IH]; intros sys Hsys.
  - exists sys. repeat split. intros n [].
  - cbn [map restore_all hashable].
    assert (Hother : forall m, In m names -> String.eqb n m = false).
    { intros m Hm. apply String.eqb_neq. intros ->. contradiction. }
    destruct (state (PStr n)) as [original|] eqn:Hstate.
    + destruct (IH (d_set (PStr n) original sys)) as (restored & -> & Hin & Hout).
      { intros m Hm Hnone. unfold d_set. rewrite py_eq_str, (Hother m Hm).
        apply Hsys; [now right | exact Hnone]. }
      exists restored. split; [reflexivity|]. split.
      * intros m [<- | Hm]; [|now apply Hin].
        rewrite Hout.
        -- unfold d_set. now rewrite py_eq_str, String.eqb_refl.
        -- intros m Hm [= ->]. contradiction.
      * intros k Hk. rewrite Hout.
        -- unfold d_set. destruct k; try reflexivity.
           rewrite py_eq_str.
           destruct (String.eqb_spec n s) as [-> | _]; [|reflexivity].
           exfalso. apply (Hk s); [now left | reflexivity].
        -- intros m Hm. apply Hk. now right.
    + destruct (sys (PStr n)) as [present|] eqn:Hsys_n.
      2:{ exfalso. apply (Hsys n); [now left | exact Hstate | exact Hsys_n]. }
      destruct (IH (d_del (PStr n) sys)) as (restored & -> & Hin & Hout).
      { intros m Hm Hnone. unfold d_del. rewrite py_eq_str, (Hother m Hm).
        apply Hsys; [now right | exact Hnone]. }
      exists restored. split; [reflexivity|]. split.
      * intros m [<- | Hm]; [|now apply Hin].
        rewrite Hout.
        -- unfold d_del. now rewrite py_eq_str, String.eqb_refl.
        -- intros m Hm [= ->]. contradiction.
      * intros k Hk. rewrite Hout.
        -- unfold d_del. destruct k; try reflexivity.
           rewrite py_eq_str.
           destruct (String.eqb_spec n s) as [-> | _]; [|reflexivity].
           exfalso. apply (Hk s); [now left | reflexivity].
        -- intros m Hm. apply Hk. now right.
Qed.

(** X23. Called with module names, none empty and none given twice, and
    around a body that takes no entry for these names out of
    [sys.modules], [block_modules] runs the body on a table in which
    each name is blocked and every other entry is as before; on exit it
    raises nothing of its own (the outcome is the body's), each name has
    the entry it had on entry (or none, if it had none), and every other
    entry is as the body left it. *)
Theorem block_modules_restores {A} (names : list string)
    (body : table -> table * (error + A)) (sys : table) :
  Forall (fun n => n <> "") names ->
  List.NoDup names ->
  keeps names body ->
  exists blocked,
    (forall n, In n names -> blocked (PStr n) = Some Blocked) /\
    (forall k, (forall n, In n names -> k <> PStr n) -> blocked k = sys k) /\
    snd (block_modules (map PStr names) body sys) = snd (body blocked) /\
    (forall n, In n names ->
       fst (block_modules (map PStr names) body sys) (PStr n) = sys (PStr n)) /\
    (forall k, (forall n, In n names -> k <> PStr n) ->
       fst (block_modules (map PStr names) body sys) k = fst (body blocked) k).
Proof.
  intros Hne Hnd Hkeeps. unfold block_modules.
  rewrite flatten_names.
  assert (Hall : filter (fun n => n <> "") names = names).
  { clear -Hne. induction Hne as [|n names Hn _ IH]; [reflexivity|].
    rewrite filter_cons. destruct (decide (n <> "")); [|contradiction].
    now rewrite IH. }
  rewrite Hall.
  destruct (block_all_scalars (map PStr names) sys) as (blocked & -> & Hb).
  { apply List.Forall_forall. intros v Hv. apply in_map_iff in Hv as (n & <- & _).
    reflexivity. }
  assert (Hin : forall n, In n names -> blocked (PStr n) = Some Blocked).
  { intros n Hn. rewrite Hb.
    replace (existsb _ _) with true; [reflexivity|].
    symmetry. apply existsb_names. now exists n. }
  assert (Hout : forall k, (forall n, In n names -> k <> PStr n) ->
                           blocked k = sys k).
  { intros k Hk. rewrite Hb.
    destruct (existsb _ _) eqn:Hex; [|reflexivity].
    apply existsb_names in Hex as (n & Hn & ->).
    exfalso. now apply (Hk n). }
  exists blocked. split; [exact Hin|]. split; [exact Hout|].
  destruct (body blocked) as [after outcome] eqn:Hbody.
  destruct (restore_all_names sys names after Hnd) as (restored & -> & Hr & Ho).
  { intros n Hn _. specialize (Hkeeps blocked n Hn).
    rewrite Hbody in Hkeeps. apply Hkeeps. now rewrite Hin. }
  cbn [fst snd]. split; [reflexivity|]. split; [exact Hr | exact Ho].
Qed.

Lemma block_modules_restores_witness :
  exists blocked : table,
    (forall n, In n ["numpy"] -> blocked (PStr n) = Some Blocked) /\
    (forall k, (forall n, In n ["numpy"] -> k <> PStr n) ->
       blocked k = (fun _ => None) k) /\
    snd (block_modules (map PStr ["numpy"]) (fun t => (t, inr tt)) (fun _ => None)) =
    snd ((fun t : table => (t, @inr error unit tt)) blocked) /\
    (forall n, In n ["numpy"] ->
       fst (block_modules (map PStr ["numpy"]) (fun t => (t, inr tt)) (fun _ => None))
         (PStr n) = (fun _ => None) (PStr n)) /\
    (forall k, (forall n, In n ["numpy"] -> k <> PStr n) ->
       fst (block_modules (map PStr ["numpy"]) (fun t => (t, inr tt)) (fun _ => None)) k =
       fst ((fun t : table => (t, @inr error unit tt)) blocked) k).
Proof.
  apply (block_modules_restores ["numpy"] (fun t => (t, inr tt)) (fun _ => None)).
  - repeat constructor. discriminate.
  - repeat constructor. intros [].
  - intros t name _ H. exact H.
Defined.

(** X24. Called with a list of names as its first argument, as the
    annotation [List[str]] has it, [block_modules] blocks the names of the
    list, since the [try] block flattens its arguments, but the [finally]
    block does not: its test [module in state] hashes the list, so the
    exit raises [TypeError] in place of the body's outcome, whatever that
    was, and restores nothing; a name of the list that the body leaves
    alone stays blocked. *)
Theorem block_modules_list_stays_blocked {A} (items rest : list pyval)
    (body : table -> table * (error + A)) (sys : table) :
  snd (block_modules (PSeq KList items :: rest) body sys) = inl unhashable /\
  forall name,
    In (PStr name) items -> name <> "" ->
    (forall t, fst (body t) (PStr name) = t (PStr name)) ->
    fst (block_modules (PSeq KList items :: rest) body sys) (PStr name) =
    Some Blocked.
Proof.
  unfold block_modules.
  destruct (block_all_scalars (flatten [PSeq KTuple (PSeq KList items :: rest)]) sys)
    as (blocked & -> & Hb).
  { apply flatten_scalars. }
  destruct (body blocked) as [after outcome] eqn:Hbody.
  cbn [restore_all hashable fst snd]. split; [reflexivity|].
  intros name Hin Hne Hsame.
  specialize (Hsame blocked). rewrite Hbody in Hsame. cbn [fst] in Hsame.
  rewrite Hsame, Hb.
  replace (existsb _ _) with true; [reflexivity|].
  symmetry. apply existsb_exists. exists (PStr name). split.
  - rewrite flatten_leaves. apply List.filter_In. split.
    + apply List.in_flat_map. exists (PSeq KTuple (PSeq KList items :: rest)).
      split; [now left|].
      rewrite leaves_seq. apply List.in_flat_map. exists (PSeq KList items).
      split; [now left|].
      rewrite leaves_seq. apply List.in_flat_map. exists (PStr name).
      split; [exact Hin | now left].
    + now destruct name.
  - cbn. apply String.eqb_refl.
Qed.

(** No output of [flatten] equals a sentinel. *)
Lemma flatten_no_sentinel_key (items : list pyval) (v : pyval) :
  is_sentinel v = true ->
  existsb (fun key => py_eq key v) (flatten items) = false.
Proof.
  intros Hv. apply not_true_is_false. intros Hex.
  apply existsb_exists in Hex as (key & Hin & Heq).
  rewrite flatten_leaves in Hin. apply List.filter_In in Hin as [_ Hkey].
  destruct v as [| | |s|]; try discriminate.
  - destruct key; discriminate.
  - destruct s; [|discriminate].
    destruct key as [| | |s|]; try discriminate.
    destruct s; discriminate.
Qed.

(** X25. The [try] block never blocks [None] or the empty string, which
    [flatten] drops, but the [finally] block meets them: with such a first
    argument that is no key of [sys.modules], neither on entry nor when
    the body is over, the exit finds nothing to delete and raises
    [KeyError] in place of the body's outcome. *)
Theorem block_modules_sentinel_raises {A} (v : pyval) (rest : list pyval)
    (body : table -> table * (error + A)) (sys : table) :
  is_sentinel v = true ->
  sys v = None ->
  (forall t, fst (body t) v = t v) ->
  snd (block_modules (v :: rest) body sys) = inl (KeyError v).
Proof.
  intros Hv Hsys Hsame. unfold block_modules.
  destruct (block_all_scalars (flatten [PSeq KTuple (v :: rest)]) sys)
    as (blocked & -> & Hb).
  { apply flatten_scalars. }
  specialize (Hsame blocked).
  destruct (body blocked) as [after outcome]. cbn [fst] in Hsame.
  cbn [restore_all].
  replace (hashable v) with true by (now destruct v).
  rewrite Hsys, Hsame, Hb, (flatten_no_sentinel_key _ v Hv), Hsys.
  reflexivity.
Qed.

Lemma block_modules_sentinel_raises_witness :
  snd (block_modules [PStr ""; PStr "numpy"] (fun t => (t, inr tt)) (fun _ => None)) =
  inl (KeyError (PStr "")).
Proof.
  exact (block_modules_sentinel_raises (PStr "") [PStr "numpy"]
           (fun t => (t, @inr error unit tt)) (fun _ => None)
           eq_refl eq_refl (fun _ => eq_refl)).
Defined.

End BlockModulesFacts.
